(** * bench_conn: the option resolver and the pipeline driver

    A shallow embedding of [src/bench_conn.c] (and of the macros of
    [common.h] it uses) together with the properties of the option
    resolver [match_string_fuzzy] and of [main].

    Conventions.
    - A C string is the [string] of its bytes; the memory object holding
      it is that [string] followed by one terminating NUL byte.  Reading
      a byte past the terminator is a read outside the object: the model
      reports it as [Undefined] instead of inventing a value.
    - [int] values are integers of [Z]; the loops of the resolver count
      with [nat] (a prefix length or an index never comes near
      [INT_MAX] for strings that fit in memory).
    - The prefix-length loop [for (count = 1; ; count ++)] has no bound
      of its own, so it is run with a fuel; [OutOfFuel] is the only
      outcome that depends on the fuel. *)

From Stdlib Require Import ZArith NArith String Ascii List Bool Lia.
From Stdlib Require Import Floats.SpecFloat.
Import ListNotations.

Local Open Scope Z_scope.

(** ** C strings and the libc functions the resolver calls *)

Module CString.

Definition NUL : ascii := Ascii.zero.

Definition code (c : ascii) : Z := Z.of_N (N_of_ascii c).

Definition is_nul (c : ascii) : bool := code c =? 0.

(** [tolower] of the C locale: only ['A'..'Z'] are mapped. *)
Definition tolower (c : ascii) : ascii :=
  if (65 <=? code c) && (code c <=? 90)
  then ascii_of_N (N_of_ascii c + 32)
  else c.

(** [*p]: the first byte of the object, the terminator for [""]. *)
Definition deref (s : string) : ascii :=
  match s with
  | EmptyString => NUL
  | String c _ => c
  end.

(** [p + 1] *)
Definition next (s : string) : string :=
  match s with
  | EmptyString => EmptyString
  | String _ s' => s'
  end.

(** [item[i]]: [None] when [i] lies past the terminating NUL. *)
Fixpoint char_at (s : string) (i : nat) : option ascii :=
  match s, i with
  | EmptyString, O => Some NUL
  | EmptyString, S _ => None
  | String c _, O => Some c
  | String _ s', S i' => char_at s' i'
  end.

(** [strlen]: the number of bytes before the first NUL. *)
Fixpoint strlen (s : string) : nat :=
  match s with
  | EmptyString => O
  | String c s' => if is_nul c then O else S (strlen s')
  end.

(** [strncasecmp (s1, s2, n)] of POSIX, in the C locale: compares at
    most [n] bytes, folding case, and stops after a NUL. *)
Fixpoint strncasecmp (s1 s2 : string) (n : nat) : Z :=
  match n with
  | O => 0
  | S n' =>
      let result := code (tolower (deref s1)) - code (tolower (deref s2)) in
      if result =? 0
      then if is_nul (deref s1) then 0
           else strncasecmp (next s1) (next s2) n'
      else result
  end.

End CString.

Import CString.

(** ** errno.h and stdlib.h (Linux values) *)

Definition ENOENT : Z := 2.
Definition ENOTUNIQ : Z := 76.
Definition EXIT_SUCCESS : Z := 0.
Definition EXIT_FAILURE : Z := 1.

(** ** The option resolver: [match_string_fuzzy] *)

Inductive outcome : Type :=
| Return (r : Z)
| Undefined
| OutOfFuel.

(** The locals of one round of the prefix-length loop.  [matched_index]
    is declared without initialiser: [None] is its indeterminate value. *)
Record flags : Type := mkFlags {
  is_null_found : bool;
  is_matched : bool;
  is_ambiguous : bool;
  matched_index : option Z
}.

Definition flags0 : flags := mkFlags false false false None.

Definition set_null_found (st : flags) : flags :=
  mkFlags true (is_matched st) (is_ambiguous st) (matched_index st).

Definition set_ambiguous (st : flags) : flags :=
  mkFlags (is_null_found st) (is_matched st) true (matched_index st).

Definition set_matched (index : nat) (st : flags) : flags :=
  mkFlags (is_null_found st) true (is_ambiguous st) (Some (Z.of_nat index)).

(** The first loop: is there an empty string before the end of the table?
    [array] is the part of the table from [index] on; [None] is a read
    past the end of the array. *)
Fixpoint find_empty (array : list (option string)) (index : nat) (n : Z)
  : option bool :=
  if Z.of_nat index <? n then
    match array with
    | [] => None
    | None :: _ => Some false
    | Some item :: rest =>
        if is_nul (deref item) then Some true
        else find_empty rest (S index) n
    end
  else Some false.

(** The inner loop of one round, at prefix length [count]. *)
Fixpoint scan (array : list (option string)) (index : nat) (n : Z)
    (string : string) (count : nat) (st : flags) : option flags :=
  if Z.of_nat index <? n then
    match array with
    | [] => None
    | None :: _ => Some st
    | Some item :: rest =>
        match char_at item count with
        | None => None
        | Some c =>
            let st := if is_nul c then set_null_found st else st in
            if strncasecmp item string count =? 0 then
              if is_matched st then Some (set_ambiguous st)
              else scan rest (S index) n string count (set_matched index st)
            else scan rest (S index) n string count st
        end
    end
  else Some st.

(** One round: [Some r] leaves the function with [r], [None] goes on to
    [count + 1]. *)
Definition round (array : list (option string)) (n : Z) (string : string)
    (count : nat) : option outcome :=
  match scan array 0 n string count flags0 with
  | None => Some Undefined
  | Some st =>
      if is_matched st && negb (is_ambiguous st) then
        match matched_index st with
        | Some i => Some (Return i)
        | None => Some Undefined
        end
      else if is_null_found st then Some (Return (- ENOTUNIQ))
      else None
  end.

Fixpoint match_loop (fuel : nat) (array : list (option string)) (n : Z)
    (string : string) (count : nat) : outcome :=
  match fuel with
  | O => OutOfFuel
  | S fuel' =>
      match round array n string count with
      | Some r => r
      | None => match_loop fuel' array n string (S count)
      end
  end.

Definition match_string_fuzzy (fuel : nat) (array : list (option string))
    (n : Z) (string : string) : outcome :=
  match find_empty array 0 n with
  | None => Undefined
  | Some true => Return (- ENOENT)
  | Some false => match_loop fuel array n string 1
  end.

(** [MMAL_COUNTOF]: the number of elements of an array. *)
Definition MMAL_COUNTOF {A : Type} (array : list A) : Z :=
  Z.of_nat (length array).

(** The tables of [main]. *)
Definition encoding_table : list (option string) :=
  [Some "i420"; Some "rgba"; None]%string.
Definition source_table : list (option string) :=
  [Some "source"; Some "camera"; None]%string.
Definition pattern_table : list (option string) :=
  [Some "white"; Some "black"; Some "diagonal"; Some "noise"; Some "random";
   Some "colour"; Some "blocks"; Some "swirly"; None]%string.
Definition dest_table : list (option string) :=
  [Some "null"; Some "render"; None]%string.
Definition conn_table : list (option string) :=
  [Some "tunnel"; Some "callback"; Some "queue"; None]%string.

(** ** Vocabulary of the properties *)

(** The candidates of a table: the strings before the [NULL] sentinel,
    among the first [n] slots. *)
Fixpoint candidates (array : list (option string)) (index : nat) (n : Z)
  : list string :=
  if Z.of_nat index <? n then
    match array with
    | Some item :: rest => item :: candidates rest (S index) n
    | _ => []
    end
  else [].

(** The resolver never indexes the array past its end: the count [n] is
    within the array, or a sentinel stops the loops before. *)
Definition in_array (array : list (option string)) (index : nat) (n : Z)
  : Prop :=
  n <= Z.of_nat index + Z.of_nat (length array) \/ In None array.

(** A candidate matches at prefix length [k]. *)
Definition matches (item string : string) (k : nat) : bool :=
  strncasecmp item string k =? 0.

(** A candidate is exhausted at [k]: [item[k]] is its terminator. *)
Definition exhausted (item : string) (k : nat) : bool :=
  match char_at item k with
  | Some c => is_nul c
  | None => false
  end.

(** Candidate [i] is the only one that matches at [k]. *)
Definition unique_match (cs : list string) (string : string) (k i : nat)
  : Prop :=
  (exists item, nth_error cs i = Some item /\ matches item string k = true) /\
  (forall j item, nth_error cs j = Some item ->
                  matches item string k = true -> j = i).

(** At least two candidates match at [k]. *)
Definition several_match (cs : list string) (string : string) (k : nat)
  : Prop :=
  exists i j item item', (i < j)%nat /\
    nth_error cs i = Some item /\ matches item string k = true /\
    nth_error cs j = Some item' /\ matches item' string k = true.

(** A sentinel-terminated table made of the given candidates. *)
Definition table_of (cs : list string) : list (option string) :=
  map Some cs ++ [None].

(** The length of the shortest candidate. *)
Fixpoint shortest (cs : list string) : nat :=
  match cs with
  | [] => O
  | [item] => strlen item
  | item :: rest => Nat.min (strlen item) (shortest rest)
  end.

(** [p] is a prefix of [s], up to case. *)
Definition is_prefix_ci (p s : string) : bool := matches s p (strlen p).

(** No candidate is a prefix of another one, up to case. *)
Definition prefix_free (cs : list string) : Prop :=
  forall i j p q, i <> j ->
    nth_error cs i = Some p -> nth_error cs j = Some q ->
    is_prefix_ci p q = false.

(** ** The command line: [getopt] and [atoi] *)

Module Libc.

(** One call of [getopt]: an option character with its argument (the
    empty string for an option without one), or the end of the options
    with the elements of [argv] left from [optind] on. *)
Inductive getopt_step : Type :=
| Got (opt : ascii) (optarg : string)
| Done (extra : list string).

(** The entry of an option character in [optstring]: [Some true] when it
    takes an argument, [None] when the character is not an option. *)
Fixpoint optstring_lookup (c : ascii) (optstring : string) : option bool :=
  match optstring with
  | EmptyString => None
  | String x rest =>
      if Ascii.eqb c x then
        Some match rest with
             | String ":" _ => true
             | _ => false
             end
      else optstring_lookup c rest
  end.

(** The option characters of one element of [argv], after its ["-"].
    The second component tells whether the next element of [argv] was
    taken as the argument of the last option.  An unknown character, or a
    missing argument, yields ['?'] ([optstring] does not start with a
    colon). *)
Fixpoint getopt_cluster (optstring : string) (cluster : string)
    (following : option string) : list getopt_step * bool :=
  match cluster with
  | EmptyString => ([], false)
  | String c cluster' =>
      if is_nul c then ([], false) else
      match (if Ascii.eqb c ":" then None else optstring_lookup c optstring) with
      | None =>
          let '(steps, taken) := getopt_cluster optstring cluster' following in
          (Got "?" "" :: steps, taken)
      | Some false =>
          let '(steps, taken) := getopt_cluster optstring cluster' following in
          (Got c "" :: steps, taken)
      | Some true =>
          if is_nul (deref cluster') then
            match following with
            | Some optarg => ([Got c optarg], true)
            | None => ([Got "?" ""], false)
            end
          else ([Got c cluster'], false)
      end
  end.

(** The successive results of [getopt (argc, argv, optstring)] for the
    elements of [argv] after [argv[0]], as POSIX specifies them: the
    scan stops at ["--"] and at the first element that is not an option
    (the GNU permutation of [argv] is not modelled). *)
Fixpoint getopt (optstring : string) (args : list string)
  : list getopt_step :=
  match args with
  | [] => [Done []]
  | arg :: rest =>
      if String.eqb arg "--" then [Done rest]
      else if Ascii.eqb (deref arg) "-" && negb (is_nul (deref (next arg)))
      then
        let '(steps, taken) :=
          getopt_cluster optstring (next arg) (hd_error rest) in
        steps ++ (if taken then
                    match rest with
                    | [] => [Done []]
                    | _ :: rest' => getopt optstring rest'
                    end
                  else getopt optstring rest)
      else [Done args]
  end.

Definition isspace (c : ascii) : bool :=
  (code c =? 32) || ((9 <=? code c) && (code c <=? 13)).

Definition isdigit (c : ascii) : bool := (48 <=? code c) && (code c <=? 57).

Fixpoint atoi_digits (s : string) (acc : Z) : Z :=
  match s with
  | EmptyString => acc
  | String c s' =>
      if isdigit c then atoi_digits s' (10 * acc + (code c - 48)) else acc
  end.

Fixpoint atoi_skip (s : string) : string :=
  match s with
  | EmptyString => s
  | String c s' => if isspace c then atoi_skip s' else s
  end.

(** [atoi]: white space, an optional sign, decimal digits.  The value is
    the mathematical one; C leaves the result undefined when it does not
    fit in an [int]. *)
Definition atoi (s : string) : Z :=
  match atoi_skip s with
  | String "-" s' => - atoi_digits s' 0
  | String "+" s' => atoi_digits s' 0
  | s' => atoi_digits s' 0
  end.

End Libc.

(** ** Binary64 arithmetic of the sleep interval *)

Module Double.

Definition prec : Z := 53.
Definition emax : Z := 1024.

(** Conversion of an [int] to [double]: exact. *)
Definition of_int (z : Z) : spec_float := binary_normalize prec emax z 0 false.

Definition mul (x y : spec_float) : spec_float := SFmul prec emax x y.

(** The literal [1e-3]: the binary64 number nearest to 1/1000, that is
    [0x10624DD2F1A9FC * 2^-62]. *)
Definition lit_1e_3 : spec_float := S754_finite false 4611686018427388 (-62).

(** The literal [1e6], an integer. *)
Definition lit_1e6 : spec_float := of_int 1000000.

(** Conversion of a [double] to an integer type: truncation toward zero.
    [None] for an infinity or a NaN, where C leaves it undefined. *)
Definition to_integer (x : spec_float) : option Z :=
  match x with
  | S754_zero _ => Some 0
  | S754_finite s m e =>
      let v := if 0 <=? e then Zpos m * 2 ^ e else Zpos m / 2 ^ (- e) in
      Some (if s then - v else v)
  | _ => None
  end.

End Double.

(** ** The pipeline driver: [main] *)

Module Driver.

Import Libc.

(** mmal_types.h *)
Definition MMAL_SUCCESS : Z := 0.

Inductive arg : Type :=
| AStr (s : string)
| AInt (i : Z)
| AOpaque.

Inductive component : Type := cp_source | cp_dest.

(** The calls into the MMAL library whose status [main] checks.  The
    library is called in two more ways, which are no events of the
    model: the formatting helpers [mmal_4cc_to_string] (in the summary)
    and [mmal_status_to_string] (in [check_mmal]), whose results are the
    [AOpaque] arguments of the messages they are printed in, and the
    lookup [mmal_util_get_port], modelled below. *)
Inductive mmal_call : Type :=
| mmal_component_create (name : string)
| mmal_port_enable (c : component)
| mmal_port_parameter_set_pattern (pattern : Z)
| mmal_port_parameter_set_int32_camera_num (camera_num : Z)
| mmal_port_format_commit (c : component) (encoding width height : Z)
| mmal_component_enable (c : component)
| mmal_connection_create (source_output_port : Z)
| mmal_connection_enable
| mmal_port_parameter_set_boolean_capture (source_output_port : Z)
| mmal_connection_disable
| mmal_port_parameter_get_statistics (c : component)
| mmal_connection_destroy
| mmal_component_destroy (c : component).

(** What the process does that can be observed from outside. *)
Inductive event : Type :=
| Stdout (fmt : string) (args : list arg)
| Info (fmt : string) (args : list arg)
| Error (fmt : string) (args : list arg)
| Mmal (call : mmal_call) (status : Z)
| Nanosleep (tv_sec tv_nsec : Z).

Definition trace : Type := list event.

(** A computation of [main]: it goes on with a value, or the process
    exits with a status, or the model has no answer ([Stuck]: the
    resolver ran out of fuel or read out of bounds, a conversion is
    undefined, or a null pointer is dereferenced). *)
Inductive result (A : Type) : Type :=
| Continue (a : A) (tr : trace)
| Exit (status : Z) (tr : trace)
| Stuck (tr : trace).

Arguments Continue {A} a tr.
Arguments Exit {A} status tr.
Arguments Stuck {A} tr.

Definition M (A : Type) : Type := trace -> result A.

Definition ret {A : Type} (a : A) : M A := fun tr => Continue a tr.

Definition bind {A B : Type} (m : M A) (f : A -> M B) : M B :=
  fun tr =>
    match m tr with
    | Continue a tr' => f a tr'
    | Exit status tr' => Exit status tr'
    | Stuck tr' => Stuck tr'
    end.

Notation "x <- m ;; f" := (bind m (fun x => f))
  (at level 61, m at next level, right associativity).
Notation "m ;; f" := (bind m (fun _ => f))
  (at level 61, right associativity).

Definition emit (e : event) : M unit := fun tr => Continue tt (tr ++ [e]).
Definition exit {A : Type} (status : Z) : M A := fun tr => Exit status tr.
Definition stuck {A : Type} : M A := fun tr => Stuck tr.

Definition print_info (fmt : string) (args : list arg) : M unit :=
  emit (Info fmt args).
Definition print_error (fmt : string) (args : list arg) : M unit :=
  emit (Error fmt args).

(** The status that the library returns for a call, given what happened
    before. *)
Definition library : Type := trace -> mmal_call -> Z.

Definition check_mmal (lib : library) (call : mmal_call) : M unit :=
  fun tr =>
    let status := lib tr call in
    let tr' := tr ++ [Mmal call status] in
    if status =? MMAL_SUCCESS then Continue tt tr'
    else (print_error "MMAL call failed: %s (0x%08x)\n" [AOpaque; AInt status] ;;
          exit EXIT_FAILURE) tr'.

Record config : Type := mkConfig {
  encoding : Z;
  width : Z;
  height : Z;
  msec : Z;
  source : Z;
  pattern : Z;
  camera_num : Z;
  source_output_port : Z;
  dest : Z;
  conn : Z
}.

Definition ENCODING_I420 : Z := 0.
Definition SOURCE_SOURCE : Z := 0.
Definition SOURCE_CAMERA : Z := 1.
Definition PATTERN_WHITE : Z := 0.
Definition DEST_NULL : Z := 0.
Definition DEST_RENDER : Z := 1.
Definition CONN_TUNNEL : Z := 0.

Definition default_config : config :=
  mkConfig ENCODING_I420 1920 1080 1000 SOURCE_SOURCE PATTERN_WHITE (-1) 0
           DEST_NULL CONN_TUNNEL.

Definition source_to_mmal : list string :=
  ["vc.ril.source"; "vc.ril.camera"]%string.
Definition dest_to_mmal : list string :=
  ["vc.null_sink"; "vc.ril.video_render"]%string.

(** [table[i]] for an index inside the table. *)
Definition entry (table : list (option string)) (i : Z) : arg :=
  match nth_error table (Z.to_nat i) with
  | Some (Some s) => AStr s
  | _ => AOpaque
  end.

Definition name_of (names : list string) (i : Z) : option string :=
  if i <? 0 then None else nth_error names (Z.to_nat i).

(** The format strings are kept as the source writes them, escapes
    included. *)
Definition usage_text : string :=
  "\n"
  ++ "  -?            Print this help\n"
  ++ "\n"
  ++ " General image options:\n"
  ++ "\n"
  ++ "  -e ENC        Encoding of a frame (default: opaque)\n"
  ++ "                Must be one of: i420, opaque\n"
  ++ "  -w WIDTH\n"
  ++ "  -h HEIGHT     Size of a frame to produce (default: 1920x1080)\n"
  ++ "  -t MSEC       Run MMAL connection for MSEC milliseconds (default: 1000)\n"
  ++ "\n"
  ++ " MMAL component options:\n"
  ++ "\n"
  ++ "  -s SOURCE     Source component to use (default: source)\n"
  ++ "                Must be one of: source, camera\n"
  ++ "  -p PATTERN    Source pattern to produce (default: white)\n"
  ++ "                Must be one of: white, black, diagonal, noise, random, colour,\n"
  ++ "                                blocks, swirly\n"
  ++ "  -n CAMERA     Camera number to use (default: -1 (not set))\n"
  ++ "  -o PORT       Camera output port to use (default: 0)\n"
  ++ "                0:preview 1:video 2:capture\n"
  ++ "  -d DEST       Destination component to use (default: null)\n"
  ++ "                Must be one of: null, render\n"
  ++ "  -c CONN       Connection method to use (default: tunnel)\n"
  ++ "                Must be one of: tunnel, callback, queue\n".

Definition usage (progname : string) : M unit :=
  emit (Stdout "Usage: %s [OPTION]...\n" [AStr progname]) ;;
  emit (Stdout usage_text []).

Definition optstring : string := "e:w:h:t:s:p:n:o:d:c:?".

(** The five [case]s that resolve an option value against a table. *)
Definition resolve (fuel : nat) (table : list (option string))
    (optarg : string) (ambiguous unknown : string) : M Z :=
  match match_string_fuzzy fuel table (MMAL_COUNTOF table) optarg with
  | Return idx =>
      if idx =? - ENOTUNIQ then
        print_error ambiguous [AStr optarg] ;; exit EXIT_FAILURE
      else if idx =? - ENOENT then
        print_error unknown [AStr optarg] ;; exit EXIT_FAILURE
      else ret idx
  | _ => stuck
  end.

(** The body of the [switch] for one result of [getopt]. *)
Definition option_case (fuel : nat) (progname : string) (opt : ascii)
    (optarg : string) (cfg : config) : M config :=
  let '(mkConfig encoding width height msec source pattern camera_num
                 source_output_port dest conn) := cfg in
  if Ascii.eqb opt "e" then
    idx <- resolve fuel encoding_table optarg
             "Encoding is ambiguous: %s\n" "Unknown encoding: %s\n" ;;
    ret (mkConfig idx width height msec source pattern camera_num
                  source_output_port dest conn)
  else if Ascii.eqb opt "w" then
    ret (mkConfig encoding (atoi optarg) height msec source pattern camera_num
                  source_output_port dest conn)
  else if Ascii.eqb opt "h" then
    ret (mkConfig encoding width (atoi optarg) msec source pattern camera_num
                  source_output_port dest conn)
  else if Ascii.eqb opt "t" then
    ret (mkConfig encoding width height (atoi optarg) source pattern camera_num
                  source_output_port dest conn)
  else if Ascii.eqb opt "s" then
    idx <- resolve fuel source_table optarg
             "Source is ambiguous: %s\n" "Unknown source: %s\n" ;;
    ret (mkConfig encoding width height msec idx pattern camera_num
                  source_output_port dest conn)
  else if Ascii.eqb opt "p" then
    idx <- resolve fuel pattern_table optarg
             "Pattern is ambiguous: %s\n" "Unknown pattern: %s\n" ;;
    ret (mkConfig encoding width height msec source idx camera_num
                  source_output_port dest conn)
  else if Ascii.eqb opt "n" then
    ret (mkConfig encoding width height msec source pattern (atoi optarg)
                  source_output_port dest conn)
  else if Ascii.eqb opt "o" then
    ret (mkConfig encoding width height msec source pattern camera_num
                  (atoi optarg) dest conn)
  else if Ascii.eqb opt "d" then
    idx <- resolve fuel dest_table optarg
             "Dest is ambiguous: %s\n" "Unknown dest: %s\n" ;;
    ret (mkConfig encoding width height msec source pattern camera_num
                  source_output_port idx conn)
  else if Ascii.eqb opt "c" then
    idx <- resolve fuel conn_table optarg
             "Conn is ambiguous: %s\n" "Unknown conn: %s\n" ;;
    ret (mkConfig encoding width height msec source pattern camera_num
                  source_output_port dest idx)
  else if Ascii.eqb opt "?" then
    usage progname ;; exit EXIT_SUCCESS
  else
    print_error "Unknown option: %x\n" [AInt (code opt)] ;; exit EXIT_FAILURE.

(** The [while] loop over the results of [getopt], and the check of
    [optind] that follows it. *)
Fixpoint parse_options (fuel : nat) (progname : string)
    (steps : list getopt_step) (cfg : config) : M config :=
  match steps with
  | [] => ret cfg
  | Got opt optarg :: steps' =>
      cfg' <- option_case fuel progname opt optarg cfg ;;
      parse_options fuel progname steps' cfg'
  | Done extra :: _ =>
      match extra with
      | [] => ret cfg
      | _ :: _ =>
          print_error "Extra argument(s) after options\n" [] ;;
          exit EXIT_FAILURE
      end
  end.

(** The summary printed once the options are parsed. *)
Definition print_summary (cfg : config) : M unit :=
  print_info "encoding: %s (%s)\n" [entry encoding_table (encoding cfg); AOpaque] ;;
  print_info "width: %d\n" [AInt (width cfg)] ;;
  print_info "height: %d\n" [AInt (height cfg)] ;;
  print_info "msec: %d\n" [AInt (msec cfg)] ;;
  print_info "source: %s (%s)\n"
    [entry source_table (source cfg);
     entry (map Some source_to_mmal) (source cfg)] ;;
  print_info "pattern: %s\n" [entry pattern_table (pattern cfg)] ;;
  print_info "camera_num: %d\n" [AInt (camera_num cfg)] ;;
  print_info "source_output_port: %d\n" [AInt (source_output_port cfg)] ;;
  print_info "dest: %s (%s)\n"
    [entry dest_table (dest cfg); entry (map Some dest_to_mmal) (dest cfg)] ;;
  print_info "conn: %s\n" [entry conn_table (conn cfg)].

(** The check of the output port of the source. *)
Definition validate (cfg : config) : M unit :=
  if (source cfg =? SOURCE_SOURCE) && negb (source_output_port cfg =? 0) then
    print_error "Output port must be 0 for source source\n" [] ;;
    exit EXIT_FAILURE
  else ret tt.

(** The number of output ports of a source component, as the program
    itself tells it: the check of the port allows port 0 only for the
    generator, and [usage] lists ports 0 (preview), 1 (video) and
    2 (capture) for the camera. *)
Definition output_num (source : Z) : Z :=
  if source =? SOURCE_SOURCE then 1 else 3.

(** [mmal_util_get_port(comp, type, index)] on a component with [num]
    ports of that type: [true] for a port, [false] for [NULL], which
    the library returns when the component has no port [index].  The
    parameter is an [unsigned], so a negative [int] is no port either. *)
Definition mmal_util_get_port (num index : Z) : bool :=
  (0 <=? index) && (index <? num).

(** [config_port] of common.h.  The macro writes through [port] before
    it calls the library, without a check of the pointer. *)
Definition config_port (lib : library) (c : component) (port : bool)
    (cfg : config) : M unit :=
  if port then
    check_mmal lib (mmal_port_format_commit c (encoding cfg) (width cfg)
                      (height cfg))
  else stuck.

Definition create_source (lib : library) (cfg : config) : M unit :=
  match name_of source_to_mmal (source cfg) with
  | None => stuck
  | Some name =>
      check_mmal lib (mmal_component_create name) ;;
      check_mmal lib (mmal_port_enable cp_source) ;;
      let port :=
        mmal_util_get_port (output_num (source cfg)) (source_output_port cfg)
      in
      (if source cfg =? SOURCE_SOURCE then
         check_mmal lib (mmal_port_parameter_set_pattern (pattern cfg))
       else if source cfg =? SOURCE_CAMERA then
         if 0 <=? camera_num cfg then
           print_info "Setting camera_num to %d\n" [AInt (camera_num cfg)] ;;
           check_mmal lib
             (mmal_port_parameter_set_int32_camera_num (camera_num cfg))
         else ret tt
       else ret tt) ;;
      config_port lib cp_source port cfg ;;
      check_mmal lib (mmal_component_enable cp_source)
  end.

(** Both components have the control port 0, and a sink has the input
    port 0. *)
Definition create_dest (lib : library) (cfg : config) : M unit :=
  match name_of dest_to_mmal (dest cfg) with
  | None => stuck
  | Some name =>
      check_mmal lib (mmal_component_create name) ;;
      check_mmal lib (mmal_port_enable cp_dest) ;;
      config_port lib cp_dest (mmal_util_get_port 1 0) cfg ;;
      check_mmal lib (mmal_component_enable cp_dest)
  end.

(** The [struct timespec] given to [nanosleep]:
    [.tv_sec = msec * 1e-3, .tv_nsec = (msec % 1000) * 1e6], both computed
    in [double] and converted to the integer type of the field. *)
Definition sleep_interval (msec : Z) : option (Z * Z) :=
  match Double.to_integer (Double.mul (Double.of_int msec) Double.lit_1e_3),
        Double.to_integer
          (Double.mul (Double.of_int (Z.rem msec 1000)) Double.lit_1e6)
  with
  | Some tv_sec, Some tv_nsec => Some (tv_sec, tv_nsec)
  | _, _ => None
  end.

Definition sleep (cfg : config) : M unit :=
  print_info "Sleeping for %d milliseconds\n" [AInt (msec cfg)] ;;
  match sleep_interval (msec cfg) with
  | Some (tv_sec, tv_nsec) => emit (Nanosleep tv_sec tv_nsec)
  | None => stuck
  end.

Definition show_stats (lib : library) (name : string) (c : component)
  : M unit :=
  check_mmal lib (mmal_port_parameter_get_statistics c) ;;
  print_info "%s: buffer_count: %u\n" [AStr name; AOpaque] ;;
  print_info "%s: frame_count: %u\n" [AStr name; AOpaque] ;;
  print_info "%s: frames_skipped: %u\n" [AStr name; AOpaque] ;;
  print_info "%s: frames_discarded: %u\n" [AStr name; AOpaque] ;;
  print_info "%s: total_bytes: %lld\n" [AStr name; AOpaque] ;;
  print_info "%s: %f [frame/s]\n" [AStr name; AOpaque] ;;
  print_info "%s: %e [B/s]\n" [AStr name; AOpaque].

(** [main] from the creation of the source component to [return 0].
    [cp_source->output[source_output_port]] is read after
    [create_source], which does not go on without that port. *)
Definition pipeline (lib : library) (cfg : config) : M Z :=
  create_source lib cfg ;;
  create_dest lib cfg ;;
  check_mmal lib (mmal_connection_create (source_output_port cfg)) ;;
  check_mmal lib mmal_connection_enable ;;
  (if (source cfg =? SOURCE_CAMERA)
      && ((source_output_port cfg =? 1) || (source_output_port cfg =? 2))
   then
     print_info "Setting capture to true\n" [] ;;
     check_mmal lib
       (mmal_port_parameter_set_boolean_capture (source_output_port cfg))
   else ret tt) ;;
  sleep cfg ;;
  check_mmal lib mmal_connection_disable ;;
  (if source cfg =? SOURCE_SOURCE then show_stats lib "source" cp_source
   else ret tt) ;;
  (if dest cfg =? DEST_RENDER then show_stats lib "dest" cp_dest
   else ret tt) ;;
  check_mmal lib mmal_connection_destroy ;;
  check_mmal lib (mmal_component_destroy cp_dest) ;;
  check_mmal lib (mmal_component_destroy cp_source) ;;
  ret 0.

(** [main] after the options are parsed. *)
Definition configured (lib : library) (cfg : config) : M Z :=
  print_summary cfg ;;
  validate cfg ;;
  pipeline lib cfg.

Definition main_body (fuel : nat) (lib : library) (argv : list string)
  : M Z :=
  match argv with
  | [] => stuck
  | progname :: args =>
      cfg <- parse_options fuel progname (getopt optstring args)
               default_config ;;
      configured lib cfg
  end.

(** The exit status of the process and what it did: a [return] from
    [main] exits with the returned value. *)
Definition main (fuel : nat) (lib : library) (argv : list string)
  : option (Z * trace) :=
  match main_body fuel lib argv [] with
  | Continue status tr => Some (status, tr)
  | Exit status tr => Some (status, tr)
  | Stuck _ => None
  end.

(** A library whose calls all succeed. *)
Definition all_success : library := fun _ _ => MMAL_SUCCESS.

Definition is_mmal (e : event) : bool :=
  match e with
  | Mmal _ _ => true
  | _ => false
  end.

End Driver.

(** ** Further vocabulary *)

(** A string with its letters folded to lower case. *)
Fixpoint casefold (s : string) : string :=
  match s with
  | EmptyString => EmptyString
  | String c s' => String (tolower c) (casefold s')
  end.

(** The first [k] bytes of a string. *)
Fixpoint take (k : nat) (s : string) : string :=
  match k, s with
  | S k', String c s' => String c (take k' s')
  | _, _ => EmptyString
  end.

(** The first letter of a string, up to case. *)
Definition initial (s : string) : ascii := tolower (deref s).

(** ** Vocabulary of the properties of the driver *)

Module DriverSpec.

Import Driver.

(** The trace at the end of a computation. *)
Definition trace_of {A : Type} (r : result A) : trace :=
  match r with
  | Continue _ tr => tr
  | Exit _ tr => tr
  | Stuck tr => tr
  end.

(** A computation keeps the trace it is given and adds events to it, all
    of which satisfy [P]. *)
Definition Emits {A : Type} (P : event -> Prop) (m : M A) : Prop :=
  forall tr, exists added, trace_of (m tr) = tr ++ added /\ Forall P added.

(** An event that is not a failed library call. *)
Definition no_failure (e : event) : Prop :=
  match e with
  | Mmal _ status => status = MMAL_SUCCESS
  | _ => True
  end.

(** An event that is not a status-checked library call: creating,
    configuring, enabling, connecting, querying and destroying
    components, ports and the connection are all such calls. *)
Definition no_checked_call (e : event) : Prop :=
  match e with
  | Mmal _ _ => False
  | _ => True
  end.

(** What [check_mmal] leaves in the trace when a call fails. *)
Definition failure_report (call : mmal_call) (status : Z) : list event :=
  [Mmal call status;
   Error "MMAL call failed: %s (0x%08x)\n" [AOpaque; AInt status]].

(** A computation stops at the first failed library call: either no
    call it made has failed, or the last call has, the process exits
    with [EXIT_FAILURE] and the trace ends with the report of that call. *)
Definition FailFast {A : Type} (m : M A) : Prop :=
  forall tr, exists added,
    trace_of (m tr) = tr ++ added /\
    (Forall no_failure added \/
     exists pre call status,
       status <> MMAL_SUCCESS /\
       added = pre ++ failure_report call status /\
       Forall no_failure pre /\
       m tr = Exit EXIT_FAILURE (tr ++ added)).

(** The calls that depend on the configuration are only made for the
    configurations they are meant for. *)
Definition allowed (cfg : config) (e : event) : Prop :=
  match e with
  | Mmal (mmal_port_parameter_set_pattern _) _ => source cfg = SOURCE_SOURCE
  | Mmal (mmal_port_parameter_set_int32_camera_num num) _ =>
      source cfg = SOURCE_CAMERA /\ num = camera_num cfg /\ 0 <= num
  | Mmal (mmal_port_parameter_set_boolean_capture port) _ =>
      source cfg = SOURCE_CAMERA /\ port = source_output_port cfg /\
      (port = 1 \/ port = 2)
  | Mmal (mmal_port_parameter_get_statistics cp_source) _ =>
      source cfg = SOURCE_SOURCE
  | Mmal (mmal_port_parameter_get_statistics cp_dest) _ =>
      dest cfg = DEST_RENDER
  | _ => True
  end.

(** An event that is not the destruction of a component or of the
    connection. *)
Definition no_destroy (e : event) : Prop :=
  match e with
  | Mmal mmal_connection_destroy _ => False
  | Mmal (mmal_component_destroy _) _ => False
  | _ => True
  end.

(** A computation goes on, whatever the trace, and adds events that
    satisfy [P]. *)
Definition Succeeds {A : Type} (P : event -> Prop) (m : M A) : Prop :=
  forall tr, exists a added,
    m tr = Continue a (tr ++ added) /\ Forall P added.

(** A result of [getopt] whose option character is one of [optstring],
    or ['?']. *)
Definition known_step (step : Libc.getopt_step) : Prop :=
  match step with
  | Libc.Got opt _ =>
      opt = "?"%char \/
      (opt <> ":"%char /\ Libc.optstring_lookup opt optstring <> None)
  | Libc.Done _ => True
  end.

(** An event that is not the diagnostic of the [default:] case. *)
Definition not_unknown_option (e : event) : Prop :=
  match e with
  | Error fmt _ => fmt <> "Unknown option: %x\n"%string
  | _ => True
  end.

(** [i] is the position of a candidate of the table. *)
Definition indexes (table : list (option string)) (i : Z) : Prop :=
  0 <= i /\
  exists item, nth_error table (Z.to_nat i) = Some (Some item).

(** Every enumerated field of a configuration is the position of a
    candidate of its table. *)
Definition enums_in_range (cfg : config) : Prop :=
  indexes encoding_table (encoding cfg) /\
  indexes source_table (source cfg) /\
  indexes pattern_table (pattern cfg) /\
  indexes dest_table (dest cfg) /\
  indexes conn_table (conn cfg).

End DriverSpec.

(** ** C strings: facts *)

Section CStringFacts.

Lemma is_nul_NUL : is_nul NUL = true.
Proof. reflexivity. Qed.

Lemma is_nul_eq (c : ascii) : is_nul c = true -> c = NUL.
Proof.
  unfold is_nul, code. intros H.
  apply Z.eqb_eq in H.
  assert (E : N_of_ascii c = 0%N) by lia.
  rewrite <- (ascii_N_embedding c), E. reflexivity.
Qed.

Lemma char_at_strlen (s : string) :
  exists c, char_at s (strlen s) = Some c /\ is_nul c = true.
Proof.
  induction s as [|a s IH]; simpl.
  - exists NUL. split; reflexivity.
  - destruct (is_nul a) eqn:E.
    + exists a. split; [reflexivity | assumption].
    + exact IH.
Qed.

Lemma char_at_below_strlen (s : string) (k : nat) :
  (k < strlen s)%nat -> exists c, char_at s k = Some c /\ is_nul c = false.
Proof.
  revert k. induction s as [|a s IH]; simpl; intros k Hk.
  - lia.
  - destruct (is_nul a) eqn:E; [lia|].
    destruct k as [|k].
    + exists a. split; [reflexivity | assumption].
    + apply IH. lia.
Qed.

Lemma char_at_upto_strlen (s : string) (k : nat) :
  (k <= strlen s)%nat -> exists c, char_at s k = Some c.
Proof.
  intros Hk. destruct (Nat.eq_dec k (strlen s)) as [->|Hne].
  - destruct (char_at_strlen s) as [c [Hc _]]. eauto.
  - destruct (char_at_below_strlen s k) as [c [Hc _]]; [lia | eauto].
Qed.

Lemma exhausted_at_strlen (s : string) : exhausted s (strlen s) = true.
Proof.
  unfold exhausted. destruct (char_at_strlen s) as [c [-> Hc]]. exact Hc.
Qed.

Lemma exhausted_below_strlen (s : string) (k : nat) :
  (k < strlen s)%nat -> exhausted s k = false.
Proof.
  intros Hk. unfold exhausted.
  destruct (char_at_below_strlen s k Hk) as [c [-> Hc]]. exact Hc.
Qed.

Lemma exhausted_strlen_le (s : string) (k : nat) :
  exhausted s k = true -> (strlen s <= k)%nat.
Proof.
  intros H. destruct (Nat.lt_ge_cases k (strlen s)) as [Hlt|Hge].
  - rewrite (exhausted_below_strlen s k Hlt) in H. discriminate.
  - exact Hge.
Qed.

Lemma strlen_pos (s : string) :
  is_nul (deref s) = false <-> (0 < strlen s)%nat.
Proof.
  destruct s as [|a s]; simpl.
  - split; [discriminate | lia].
  - destruct (is_nul a); split; try discriminate; try lia; reflexivity.
Qed.

(** A match at [S k] is a match at [k]. *)
Lemma matches_shorter (item string : string) (k : nat) :
  matches item string (S k) = true -> matches item string k = true.
Proof.
  unfold matches. revert item string.
  induction k as [|k IH]; intros item string H.
  - reflexivity.
  - change (strncasecmp item string (S (S k)))
      with (let result := code (tolower (deref item)) - code (tolower (deref string)) in
            if result =? 0
            then if is_nul (deref item) then 0
                 else strncasecmp (next item) (next string) (S k)
            else result) in H.
    change (strncasecmp item string (S k))
      with (let result := code (tolower (deref item)) - code (tolower (deref string)) in
            if result =? 0
            then if is_nul (deref item) then 0
                 else strncasecmp (next item) (next string) k
            else result).
    cbv zeta in *.
    destruct (code (tolower (deref item)) - code (tolower (deref string)) =? 0) eqn:E.
    + destruct (is_nul (deref item)); [reflexivity|].
      apply IH. exact H.
    + exact H.
Qed.

Lemma matches_le (item string : string) (k k' : nat) :
  (k' <= k)%nat -> matches item string k = true ->
  matches item string k' = true.
Proof.
  induction 1 as [|k Hle IH]; intros H; [exact H|].
  apply IH. apply matches_shorter. exact H.
Qed.

End CStringFacts.

(** ** The inner loop *)

Section Scan.

Variable string : string.
Variable k : nat.

(** Once a first match is recorded, the rest of the scan either meets a
    second match, and stops with [is_ambiguous], or meets none. *)
Lemma scan_after_match (array : list (option String.string)) :
  forall (index : nat) (n : Z) (st st' : flags),
    is_matched st = true -> is_ambiguous st = false ->
    scan array index n string k st = Some st' ->
    is_matched st' = true /\ matched_index st' = matched_index st /\
    (is_ambiguous st' = true <->
     exists item, In item (candidates array index n) /\
                  matches item string k = true).
Proof.
  induction array as [|slot rest IH]; intros index n st st' Hm Ha Hs;
    cbn [scan candidates] in *;
    destruct (Z.of_nat index <? n) eqn:Hlt.
  - discriminate.
  - inversion Hs; subst st'. repeat split; auto.
    + rewrite Ha. discriminate.
    + intros [item [[] _]].
  - destruct slot as [item|].
    + destruct (char_at item k) as [c|]; [|discriminate].
      cbv zeta in Hs. fold (matches item string k) in Hs.
      set (st1 := if is_nul c then set_null_found st else st) in *.
      assert (Hm1 : is_matched st1 = true)
        by (unfold st1; destruct (is_nul c); assumption).
      assert (Ha1 : is_ambiguous st1 = false)
        by (unfold st1; destruct (is_nul c); assumption).
      assert (Hi1 : matched_index st1 = matched_index st)
        by (unfold st1; destruct (is_nul c); reflexivity).
      destruct (matches item string k) eqn:Hmatch.
      * rewrite Hm1 in Hs. inversion Hs; subst st'. cbn.
        repeat split; auto.
        intros _. exists item. split; [left; reflexivity | assumption].
      * destruct (IH _ _ _ _ Hm1 Ha1 Hs) as [H1 [H2 H3]].
        repeat split; [assumption | congruence | |].
        -- intros H. apply H3 in H. destruct H as [it [Hin Hit]].
           exists it. split; [right; assumption | assumption].
        -- intros [it [[Heq|Hin] Hit]].
           ++ subst it. congruence.
           ++ apply H3. eauto.
    + inversion Hs; subst st'. repeat split; auto.
      * rewrite Ha. discriminate.
      * intros [item [[] _]].
  - inversion Hs; subst st'. repeat split; auto.
    + rewrite Ha. discriminate.
    + intros [item [[] _]].
Qed.

(** Before any match: either no candidate matches, or the scan records
    the first matching candidate, and is ambiguous exactly when another
    one follows. *)
Lemma scan_before_match (array : list (option String.string)) :
  forall (index : nat) (n : Z) (st st' : flags),
    is_matched st = false -> is_ambiguous st = false ->
    scan array index n string k st = Some st' ->
    (is_matched st' = false /\ is_ambiguous st' = false /\
     forall item, In item (candidates array index n) ->
                  matches item string k = false)
    \/
    (is_matched st' = true /\
     exists j item,
       nth_error (candidates array index n) j = Some item /\
       matches item string k = true /\
       matched_index st' = Some (Z.of_nat (index + j)) /\
       (forall j' item', (j' < j)%nat ->
          nth_error (candidates array index n) j' = Some item' ->
          matches item' string k = false) /\
       (is_ambiguous st' = true <->
        exists j' item', (j < j')%nat /\
          nth_error (candidates array index n) j' = Some item' /\
          matches item' string k = true)).
Proof.
  induction array as [|slot rest IH]; intros index n st st' Hm Ha Hs;
    cbn [scan] in Hs;
    destruct (Z.of_nat index <? n) eqn:Hlt.
  - discriminate.
  - inversion Hs; subst st'. left. cbn [candidates]. rewrite Hlt.
    repeat split; auto. intros item [].
  - destruct slot as [item|].
    + destruct (char_at item k) as [c|]; [|discriminate].
      cbv zeta in Hs. fold (matches item string k) in Hs.
      set (st1 := if is_nul c then set_null_found st else st) in *.
      assert (Hm1 : is_matched st1 = false)
        by (unfold st1; destruct (is_nul c); assumption).
      assert (Ha1 : is_ambiguous st1 = false)
        by (unfold st1; destruct (is_nul c); assumption).
      destruct (matches item string k) eqn:Hmatch.
      * rewrite Hm1 in Hs.
        destruct (scan_after_match rest (S index) n (set_matched index st1) st')
          as [H1 [H2 H3]]; [reflexivity | exact Ha1 | exact Hs |].
        right. split; [assumption|].
        exists 0%nat, item. cbn [candidates]. rewrite Hlt.
        split; [reflexivity|]. split; [assumption|].
        split; [rewrite H2; cbn; rewrite Nat.add_0_r; reflexivity|].
        split; [intros j' item' Hj'; lia|].
        split.
        -- intros H. apply H3 in H. destruct H as [it [Hin Hit]].
           apply In_nth_error in Hin. destruct Hin as [j Hj].
           exists (S j), it. split; [lia|]. split; assumption.
        -- intros [j' [item' [Hj' [Hnth Hit]]]]. apply H3.
           destruct j' as [|j']; [lia|]. cbn in Hnth.
           exists item'. split; [|assumption].
           eapply nth_error_In; eassumption.
      * destruct (IH _ _ _ _ Hm1 Ha1 Hs) as [[H1 [H2 H3]] | [H1 H2]].
        -- left. cbn [candidates]. rewrite Hlt. repeat split; auto.
           intros it [Heq|Hin]; [subst it; assumption | auto].
        -- right. split; [assumption|].
           destruct H2 as [j [it [Hnth [Hit [Hidx [Hfirst Hamb]]]]]].
           exists (S j), it. cbn [candidates]. rewrite Hlt.
           split; [exact Hnth|]. split; [assumption|].
           split; [rewrite Hidx; f_equal; lia|].
           split.
           ++ intros j' item' Hj' Hn'. destruct j' as [|j'].
              ** cbn in Hn'. inversion Hn'; subst item'. assumption.
              ** cbn in Hn'. eapply Hfirst; [|eassumption]. lia.
           ++ split.
              ** intros H. apply Hamb in H.
                 destruct H as [j' [item' [Hj' [Hn' Hit']]]].
                 exists (S j'), item'. split; [lia|]. split; assumption.
              ** intros [j' [item' [Hj' [Hn' Hit']]]]. apply Hamb.
                 destruct j' as [|j']; [lia|]. cbn in Hn'.
                 exists j', item'. split; [lia|]. split; assumption.
    + inversion Hs; subst st'. left. cbn [candidates]. rewrite Hlt.
      repeat split; auto. intros item [].
  - inversion Hs; subst st'. left. cbn [candidates]. rewrite Hlt.
    repeat split; auto. intros item [].
Qed.

Lemma scan_null_found_mono (array : list (option String.string)) :
  forall (index : nat) (n : Z) (st st' : flags),
    scan array index n string k st = Some st' ->
    is_null_found st = true -> is_null_found st' = true.
Proof.
  induction array as [|slot rest IH]; intros index n st st' Hs Hnf;
    cbn [scan] in Hs;
    destruct (Z.of_nat index <? n); try (inversion Hs; subst; assumption).
  destruct slot as [item|]; [|inversion Hs; subst; assumption].
    destruct (char_at item k) as [c|]; [|discriminate].
    cbv zeta in Hs.
    set (st1 := if is_nul c then set_null_found st else st) in *.
    assert (Hnf1 : is_null_found st1 = true)
      by (unfold st1; destruct (is_nul c); [reflexivity | assumption]).
    destruct (strncasecmp item string k =? 0).
    + destruct (is_matched st1).
      * inversion Hs; subst st'. exact Hnf1.
      * eapply IH; [exact Hs | exact Hnf1].
    + eapply IH; [exact Hs | exact Hnf1].
Qed.

(** [is_null_found] is only ever set by an exhausted candidate. *)
Lemma scan_null_found_inv (array : list (option String.string)) :
  forall (index : nat) (n : Z) (st st' : flags),
    scan array index n string k st = Some st' ->
    is_null_found st' = true ->
    is_null_found st = true \/
    exists item, In item (candidates array index n) /\
                 exhausted item k = true.
Proof.
  induction array as [|slot rest IH]; intros index n st st' Hs Hnf;
    cbn [scan] in Hs; cbn [candidates];
    destruct (Z.of_nat index <? n);
    try (inversion Hs; subst; left; assumption).
  destruct slot as [item|]; [|inversion Hs; subst; left; assumption].
    destruct (char_at item k) as [c|] eqn:Hc; [|discriminate].
    cbv zeta in Hs.
    destruct (is_nul c) eqn:Hnul.
    + right. exists item. split; [left; reflexivity|].
      unfold exhausted. rewrite Hc. exact Hnul.
    + assert (Hrest : is_null_found st = true \/
                      exists it, In it (candidates rest (S index) n) /\
                                 exhausted it k = true).
      { destruct (strncasecmp item string k =? 0).
        - destruct (is_matched st).
          + inversion Hs; subst st'. left. exact Hnf.
          + destruct (IH _ _ _ _ Hs Hnf) as [H|H]; [left; exact H | right; exact H].
        - exact (IH _ _ _ _ Hs Hnf). }
      destruct Hrest as [H | [it [Hin Hit]]]; [left; exact H|].
      right. exists it. split; [right; exact Hin | exact Hit].
Qed.

(** The scan reads inside the table and inside every candidate when the
    prefix length does not exceed the length of any candidate. *)
Lemma scan_defined (array : list (option String.string)) :
  forall (index : nat) (n : Z) (st : flags),
    in_array array index n ->
    (forall item, In item (candidates array index n) ->
                  (k <= strlen item)%nat) ->
    exists st', scan array index n string k st = Some st'.
Proof.
  induction array as [|slot rest IH]; intros index n st Hin Hlen;
    cbn [scan]; cbn [candidates] in Hlen;
    destruct (Z.of_nat index <? n) eqn:Hlt; try (eexists; reflexivity).
  - exfalso. apply Z.ltb_lt in Hlt. destruct Hin as [H|[]]. cbn in H. lia.
  - destruct slot as [item|]; [|eexists; reflexivity].
    destruct (char_at_upto_strlen item k) as [c Hc];
      [apply Hlen; left; reflexivity|].
    rewrite Hc. cbv zeta.
    assert (Hin' : in_array rest (S index) n).
    { destruct Hin as [H|[H|H]].
      - left. cbn [length] in H. lia.
      - discriminate.
      - right. exact H. }
    assert (Hlen' : forall it, In it (candidates rest (S index) n) ->
                               (k <= strlen it)%nat)
      by (intros it Hit; apply Hlen; right; exact Hit).
    destruct (strncasecmp item string k =? 0).
    + destruct (is_matched (if is_nul c then set_null_found st else st));
        [eexists; reflexivity | apply IH; assumption].
    + apply IH; assumption.
Qed.

(** When nothing matches, the scan visits every candidate and only
    records whether one of them is exhausted. *)
Lemma scan_no_match (array : list (option String.string)) :
  forall (index : nat) (n : Z) (st : flags),
    in_array array index n ->
    (forall item, In item (candidates array index n) ->
                  (k <= strlen item)%nat) ->
    (forall item, In item (candidates array index n) ->
                  matches item string k = false) ->
    scan array index n string k st
    = Some (if existsb (fun item => exhausted item k)
                       (candidates array index n)
            then set_null_found st else st).
Proof.
  induction array as [|slot rest IH]; intros index n st Hin Hlen Hno;
    cbn [scan]; cbn [candidates] in *;
    destruct (Z.of_nat index <? n) eqn:Hlt; try reflexivity.
  - exfalso. apply Z.ltb_lt in Hlt. destruct Hin as [H|[]]. cbn in H. lia.
  - destruct slot as [item|]; [|reflexivity].
    destruct (char_at_upto_strlen item k) as [c Hc];
      [apply Hlen; left; reflexivity|].
    rewrite Hc. cbv zeta. fold (matches item string k).
    rewrite (Hno item (or_introl eq_refl)).
    assert (Hin' : in_array rest (S index) n).
    { destruct Hin as [H|[H|H]].
      - left. cbn [length] in H. lia.
      - discriminate.
      - right. exact H. }
    rewrite IH; [| exact Hin'
                 | intros it Hit; apply Hlen; right; exact Hit
                 | intros it Hit; apply Hno; right; exact Hit].
    cbn [existsb]. unfold exhausted at 2. rewrite Hc.
    destruct (is_nul c); cbn [orb]; [|reflexivity].
    destruct (existsb _ _); reflexivity.
Qed.

(** A scan that does not stop at a second match has read every
    candidate at index [k]. *)
Lemma scan_reads_every_candidate (array : list (option String.string)) :
  forall (index : nat) (n : Z) (st st' : flags),
    scan array index n string k st = Some st' ->
    is_ambiguous st' = false ->
    forall item, In item (candidates array index n) ->
                 char_at item k <> None.
Proof.
  induction array as [|slot rest IH]; intros index n st st' Hs Ha item Hitem;
    cbn [scan] in Hs; cbn [candidates] in Hitem;
    destruct (Z.of_nat index <? n); try contradiction.
  destruct slot as [item0|]; [|contradiction].
  destruct (char_at item0 k) as [c|] eqn:Hc; [|discriminate].
  cbv zeta in Hs.
  destruct Hitem as [<- | Hitem]; [congruence|].
  destruct (strncasecmp item0 string k =? 0).
  - destruct (is_matched (if is_nul c then set_null_found st else st)).
    + inversion Hs; subst st'. discriminate.
    + exact (IH _ _ _ _ Hs Ha item Hitem).
  - exact (IH _ _ _ _ Hs Ha item Hitem).
Qed.

End Scan.

(** ** The first loop *)

Lemma find_empty_true (array : list (option string)) :
  forall (index : nat) (n : Z),
    (exists item, In item (candidates array index n) /\ strlen item = 0%nat) ->
    find_empty array index n = Some true.
Proof.
  induction array as [|slot rest IH]; intros index n [item [Hin Hlen]];
    cbn [find_empty]; cbn [candidates] in Hin;
    destruct (Z.of_nat index <? n); try contradiction.
  destruct slot as [item0|]; [|contradiction].
  destruct (is_nul (deref item0)) eqn:E; [reflexivity|].
  destruct Hin as [Heq|Hin].
  - subst item0. apply strlen_pos in E. lia.
  - apply IH. eauto.
Qed.

Lemma find_empty_false (array : list (option string)) :
  forall (index : nat) (n : Z),
    in_array array index n ->
    (forall item, In item (candidates array index n) -> (0 < strlen item)%nat) ->
    find_empty array index n = Some false.
Proof.
  induction array as [|slot rest IH]; intros index n Hin Hpos;
    cbn [find_empty]; cbn [candidates] in Hpos;
    destruct (Z.of_nat index <? n) eqn:Hlt; try reflexivity.
  - exfalso. apply Z.ltb_lt in Hlt. destruct Hin as [H|[]]. cbn in H. lia.
  - destruct slot as [item|]; [|reflexivity].
    assert (E : is_nul (deref item) = false)
      by (apply strlen_pos; apply Hpos; left; reflexivity).
    rewrite E. apply IH.
    + destruct Hin as [H|[H|H]].
      * left. cbn [length] in H. lia.
      * discriminate.
      * right. exact H.
    + intros it Hit. apply Hpos. right. exact Hit.
Qed.

Lemma find_empty_false_inv (array : list (option string)) :
  forall (index : nat) (n : Z),
    find_empty array index n = Some false ->
    in_array array index n /\
    forall item, In item (candidates array index n) -> (0 < strlen item)%nat.
Proof.
  induction array as [|slot rest IH]; intros index n H;
    cbn [find_empty] in H; cbn [candidates];
    destruct (Z.of_nat index <? n) eqn:Hlt.
  - discriminate.
  - apply Z.ltb_ge in Hlt. split; [left; lia | intros item []].
  - destruct slot as [item|].
    + destruct (is_nul (deref item)) eqn:E; [discriminate|].
      destruct (IH _ _ H) as [Hin Hpos]. split.
      * destruct Hin as [Hin|Hin]; [left; cbn [length]; lia | right; right; exact Hin].
      * intros it [Heq|Hit]; [subst it; apply strlen_pos; exact E | auto].
    + split; [right; left; reflexivity | intros item []].
  - apply Z.ltb_ge in Hlt. split; [left; lia | intros item []].
Qed.

(** ** One round *)

Section Round.

Variable array : list (option string).
Variable n : Z.
Variable string : string.
Variable k : nat.

Lemma scan_unique (st : flags) (i : nat) :
  scan array 0 n string k flags0 = Some st ->
  unique_match (candidates array 0 n) string k i ->
  is_matched st = true /\ is_ambiguous st = false /\
  matched_index st = Some (Z.of_nat i).
Proof.
  intros Hs [[item [Hnth Hit]] Huniq].
  destruct (scan_before_match string k array 0 n flags0 st eq_refl eq_refl Hs)
    as [[_ [_ Hno]] | [Hm [j [it [Hj [Hmj [Hidx [_ Hamb]]]]]]]].
  - apply nth_error_In in Hnth. rewrite (Hno _ Hnth) in Hit. discriminate.
  - assert (j = i) by (eapply Huniq; eassumption). subst j.
    split; [exact Hm|]. split; [|exact Hidx].
    destruct (is_ambiguous st); [|reflexivity].
    destruct (proj1 Hamb eq_refl) as [j' [it' [Hlt [Hn' Hm']]]].
    specialize (Huniq _ _ Hn' Hm'). lia.
Qed.

Lemma scan_unique_inv (st : flags) :
  scan array 0 n string k flags0 = Some st ->
  is_matched st = true -> is_ambiguous st = false ->
  exists i, matched_index st = Some (Z.of_nat i) /\
            unique_match (candidates array 0 n) string k i.
Proof.
  intros Hs Hm Ha.
  destruct (scan_before_match string k array 0 n flags0 st eq_refl eq_refl Hs)
    as [[Hm' _] | [_ [j [it [Hj [Hmj [Hidx [Hfirst Hamb]]]]]]]].
  - congruence.
  - exists j. split; [exact Hidx|]. split; [eauto|].
    intros j' it' Hn' Hm'.
    destruct (Nat.lt_trichotomy j' j) as [Hlt | [Heq | Hgt]].
    + rewrite (Hfirst _ _ Hlt Hn') in Hm'. discriminate.
    + exact Heq.
    + assert (is_ambiguous st = true) by (apply Hamb; eauto). congruence.
Qed.

Lemma scan_several (st : flags) :
  scan array 0 n string k flags0 = Some st ->
  several_match (candidates array 0 n) string k ->
  is_matched st = true /\ is_ambiguous st = true.
Proof.
  intros Hs [i [j [it [it' [Hij [Hi [Hmi [Hj Hmj]]]]]]]].
  destruct (scan_before_match string k array 0 n flags0 st eq_refl eq_refl Hs)
    as [[_ [_ Hno]] | [Hm [j0 [it0 [Hj0 [Hmj0 [_ [Hfirst Hamb]]]]]]]].
  - apply nth_error_In in Hi. rewrite (Hno _ Hi) in Hmi. discriminate.
  - split; [exact Hm|]. apply Hamb.
    assert (j0 <= i)%nat.
    { destruct (Nat.le_gt_cases j0 i) as [H|H]; [exact H|].
      rewrite (Hfirst _ _ H Hi) in Hmi. discriminate. }
    exists j, it'. split; [lia|]. split; assumption.
Qed.

(** A round that returns an index returns the only matching one. *)
Lemma round_index (i : Z) :
  round array n string k = Some (Return i) -> 0 <= i ->
  unique_match (candidates array 0 n) string k (Z.to_nat i).
Proof.
  unfold round. intros H Hi.
  destruct (scan array 0 n string k flags0) as [st|] eqn:Hs; [|discriminate].
  destruct (is_matched st && negb (is_ambiguous st)) eqn:Hb.
  - apply andb_true_iff in Hb. destruct Hb as [Hm Ha].
    apply negb_true_iff in Ha.
    destruct (scan_unique_inv st Hs Hm Ha) as [j [Hidx Hu]].
    rewrite Hidx in H. inversion H; subst i.
    rewrite Nat2Z.id. exact Hu.
  - destruct (is_null_found st); [|discriminate].
    inversion H; subst i. unfold ENOTUNIQ in Hi. lia.
Qed.

(** A round that returns an index has read every candidate at index
    [k]: none of them is shorter than [k]. *)
Lemma round_index_reads (i : Z) :
  round array n string k = Some (Return i) -> 0 <= i ->
  forall item, In item (candidates array 0 n) -> char_at item k <> None.
Proof.
  unfold round. intros H Hi.
  destruct (scan array 0 n string k flags0) as [st|] eqn:Hs; [|discriminate].
  destruct (is_matched st && negb (is_ambiguous st)) eqn:Hb.
  - apply andb_true_iff in Hb. destruct Hb as [_ Ha].
    apply negb_true_iff in Ha.
    exact (scan_reads_every_candidate string k array 0 n flags0 st Hs Ha).
  - destruct (is_null_found st); [|discriminate].
    inversion H; subst i. unfold ENOTUNIQ in Hi. lia.
Qed.

(** With exactly one matching candidate the round cannot go on, and
    cannot report an ambiguity. *)
Lemma round_unique_cases (i : nat) :
  unique_match (candidates array 0 n) string k i ->
  round array n string k = Some (Return (Z.of_nat i)) \/
  round array n string k = Some Undefined.
Proof.
  unfold round. intros Hu.
  destruct (scan array 0 n string k flags0) as [st|] eqn:Hs;
    [|right; reflexivity].
  destruct (scan_unique st i Hs Hu) as [Hm [Ha Hidx]].
  rewrite Hm, Ha, Hidx. left. reflexivity.
Qed.

Lemma round_unique (i : nat) :
  in_array array 0 n ->
  (forall item, In item (candidates array 0 n) -> (k <= strlen item)%nat) ->
  unique_match (candidates array 0 n) string k i ->
  round array n string k = Some (Return (Z.of_nat i)).
Proof.
  intros Hin Hlen Hu. unfold round.
  destruct (scan_defined string k array 0 n flags0 Hin Hlen) as [st Hs].
  rewrite Hs.
  destruct (scan_unique st i Hs Hu) as [Hm [Ha Hidx]].
  rewrite Hm, Ha, Hidx. reflexivity.
Qed.

(** The ambiguity code is only returned over an exhausted candidate, and
    never when exactly one candidate matches. *)
Lemma round_ambiguous_inv :
  round array n string k = Some (Return (- ENOTUNIQ)) ->
  (exists item, In item (candidates array 0 n) /\ exhausted item k = true) /\
  (forall i, ~ unique_match (candidates array 0 n) string k i).
Proof.
  unfold round. intros H.
  destruct (scan array 0 n string k flags0) as [st|] eqn:Hs; [|discriminate].
  destruct (is_matched st && negb (is_ambiguous st)) eqn:Hb.
  - apply andb_true_iff in Hb. destruct Hb as [Hm Ha].
    apply negb_true_iff in Ha.
    destruct (scan_unique_inv st Hs Hm Ha) as [j [Hidx _]].
    rewrite Hidx in H. inversion H. unfold ENOTUNIQ in *. lia.
  - destruct (is_null_found st) eqn:Hnf; [|discriminate]. split.
    + destruct (scan_null_found_inv string k array 0 n flags0 st Hs Hnf)
        as [Hf | Hex]; [discriminate | exact Hex].
    + intros i Hu. destruct (scan_unique st i Hs Hu) as [Hm [Ha _]].
      rewrite Hm, Ha in Hb. discriminate.
Qed.

Lemma round_none_inv :
  round array n string k = None ->
  (forall i, ~ unique_match (candidates array 0 n) string k i).
Proof.
  intros H i Hu.
  destruct (round_unique_cases i Hu) as [E|E]; rewrite E in H; discriminate.
Qed.

(** Several matches and no exhausted candidate: the round goes on. *)
Lemma round_several (Hin : in_array array 0 n) :
  (forall item, In item (candidates array 0 n) -> (k < strlen item)%nat) ->
  several_match (candidates array 0 n) string k ->
  round array n string k = None.
Proof.
  intros Hlen Hsev. unfold round.
  destruct (scan_defined string k array 0 n flags0 Hin) as [st Hs].
  { intros item Hitem. specialize (Hlen item Hitem). lia. }
  rewrite Hs.
  destruct (scan_several st Hs Hsev) as [Hm Ha]. rewrite Hm, Ha. cbn.
  destruct (is_null_found st) eqn:Hnf; [|reflexivity].
  destruct (scan_null_found_inv string k array 0 n flags0 st Hs Hnf)
    as [Hf | [item [Hitem Hex]]]; [discriminate|].
  rewrite (exhausted_below_strlen item k (Hlen item Hitem)) in Hex.
  discriminate.
Qed.

(** No match at all: the round goes on, unless a candidate is exhausted,
    and then the result is the ambiguity code. *)
Lemma round_no_match (Hin : in_array array 0 n) :
  (forall item, In item (candidates array 0 n) -> (k <= strlen item)%nat) ->
  (forall item, In item (candidates array 0 n) -> matches item string k = false) ->
  round array n string k
  = if existsb (fun item => exhausted item k) (candidates array 0 n)
    then Some (Return (- ENOTUNIQ)) else None.
Proof.
  intros Hlen Hno. unfold round.
  rewrite (scan_no_match string k array 0 n flags0 Hin Hlen Hno).
  destruct (existsb _ _); reflexivity.
Qed.

End Round.

(** ** The prefix-length loop *)

Section Loop.

Variable array : list (option string).
Variable n : Z.
Variable string : string.

Lemma match_loop_inv (fuel : nat) :
  forall (count : nat) (r : outcome),
    match_loop fuel array n string count = r -> r <> OutOfFuel ->
    exists k, (count <= k < count + fuel)%nat /\
              round array n string k = Some r /\
              forall k', (count <= k' < k)%nat ->
                         round array n string k' = None.
Proof.
  induction fuel as [|fuel IH]; intros count r H Hr; cbn [match_loop] in H.
  - congruence.
  - destruct (round array n string count) as [r0|] eqn:Hround.
    + subst r0. exists count. split; [lia|]. split; [exact Hround|].
      intros k' Hk'. lia.
    + destruct (IH _ _ H Hr) as [k [Hk [Hrk Hbefore]]].
      exists k. split; [lia|]. split; [exact Hrk|].
      intros k' Hk'. destruct (Nat.eq_dec k' count) as [->|Hne].
      * exact Hround.
      * apply Hbefore. lia.
Qed.

Lemma match_loop_reach (fuel : nat) :
  forall (count k : nat) (r : outcome),
    (count <= k < count + fuel)%nat ->
    round array n string k = Some r ->
    (forall k', (count <= k' < k)%nat -> round array n string k' = None) ->
    match_loop fuel array n string count = r.
Proof.
  induction fuel as [|fuel IH]; intros count k r Hk Hr Hbefore;
    cbn [match_loop].
  - lia.
  - destruct (Nat.eq_dec k count) as [->|Hne].
    + rewrite Hr. reflexivity.
    + rewrite (Hbefore count) by lia.
      apply (IH (S count) k r); [lia | exact Hr |].
      intros k' Hk'. apply Hbefore. lia.
Qed.

End Loop.

(** ** The resolver as a whole *)

Lemma round_not_out_of_fuel (array : list (option string)) (n : Z)
    (string : string) (k : nat) (r : outcome) :
  round array n string k = Some r -> r <> OutOfFuel.
Proof.
  unfold round.
  destruct (scan array 0 n string k flags0) as [st|];
    [|intros H; inversion H; discriminate].
  destruct (is_matched st && negb (is_ambiguous st)).
  - destruct (matched_index st); intros H; inversion H; discriminate.
  - destruct (is_null_found st); intros H; inversion H; discriminate.
Qed.

Lemma shortest_le (cs : list string) (item : string) :
  In item cs -> (shortest cs <= strlen item)%nat.
Proof.
  induction cs as [|a [|b rest] IH]; intros Hin.
  - contradiction.
  - destruct Hin as [->|[]]. cbn. lia.
  - change (shortest (a :: b :: rest))
      with (Nat.min (strlen a) (shortest (b :: rest))).
    destruct Hin as [->|Hin]; [lia|]. specialize (IH Hin). lia.
Qed.

Lemma shortest_in (cs : list string) :
  cs <> [] -> exists item, In item cs /\ strlen item = shortest cs.
Proof.
  induction cs as [|a [|b rest] IH]; intros Hne.
  - congruence.
  - exists a. split; [left; reflexivity | reflexivity].
  - change (shortest (a :: b :: rest))
      with (Nat.min (strlen a) (shortest (b :: rest))).
    destruct (IH ltac:(discriminate)) as [item [Hin Hlen]].
    destruct (Nat.le_ge_cases (strlen a) (shortest (b :: rest))) as [H|H].
    + exists a. split; [left; reflexivity | lia].
    + exists item. split; [right; exact Hin | lia].
Qed.

(** The round at the length of the first candidate always leaves the
    function: the first candidate sets [is_null_found] before anything can
    stop the scan. *)
Lemma round_first_exhausted (item0 : string) (rest : list (option string))
    (n : Z) (string : string) :
  0 < n ->
  round (Some item0 :: rest) n string (strlen item0) <> None.
Proof.
  intros Hn. unfold round. cbn [scan].
  assert (Hlt : (Z.of_nat 0 <? n) = true) by (apply Z.ltb_lt; lia).
  rewrite Hlt.
  destruct (char_at_strlen item0) as [c [Hc Hnul]]. rewrite Hc, Hnul.
  cbv zeta.
  assert (Hres : forall st st',
             is_null_found st = true ->
             scan rest 1 n string (strlen item0) st = Some st' ->
             (if is_matched st' && negb (is_ambiguous st')
              then match matched_index st' with
                   | Some i => Some (Return i)
                   | None => Some Undefined
                   end
              else if is_null_found st' then Some (Return (- ENOTUNIQ))
                   else None) <> None).
  { intros st st' Hnf Hs.
    rewrite (scan_null_found_mono _ _ _ _ _ _ _ Hs Hnf).
    destruct (is_matched st' && negb (is_ambiguous st'));
      [destruct (matched_index st')|]; discriminate. }
  destruct (strncasecmp item0 string (strlen item0) =? 0); cbn [is_matched set_null_found flags0].
  - destruct (scan rest 1 n string (strlen item0) _) as [st'|] eqn:Hs;
      [|discriminate].
    eapply Hres; [|exact Hs]. reflexivity.
  - destruct (scan rest 1 n string (strlen item0) _) as [st'|] eqn:Hs;
      [|discriminate].
    eapply Hres; [|exact Hs]. reflexivity.
Qed.

Lemma match_loop_bounded (array : list (option string)) (n : Z)
    (string : string) (bound : nat) :
  round array n string bound <> None ->
  forall (d count : nat), (count + d = bound)%nat ->
    exists r, r <> OutOfFuel /\
      forall fuel, (d < fuel)%nat ->
                   match_loop fuel array n string count = r.
Proof.
  intros Hbound. induction d as [|d IH]; intros count Hcount.
  - replace count with bound by lia.
    destruct (round array n string bound) as [r|] eqn:Hr; [|congruence].
    exists r. split; [eapply round_not_out_of_fuel; exact Hr|].
    intros [|fuel] Hf; [lia|]. cbn [match_loop]. rewrite Hr. reflexivity.
  - destruct (round array n string count) as [r|] eqn:Hr.
    + exists r. split; [eapply round_not_out_of_fuel; exact Hr|].
      intros [|fuel] Hf; [lia|]. cbn [match_loop]. rewrite Hr. reflexivity.
    + destruct (IH (S count) ltac:(lia)) as [r [Hne Hall]].
      exists r. split; [exact Hne|].
      intros [|fuel] Hf; [lia|]. cbn [match_loop]. rewrite Hr.
      apply Hall. lia.
Qed.

Lemma candidates_cons_inv (array : list (option string)) (n : Z)
    (item0 : string) (cs : list string) :
  candidates array 0 n = item0 :: cs ->
  0 < n /\ exists rest, array = Some item0 :: rest.
Proof.
  destruct array as [|[item|] rest]; cbn [candidates];
    destruct (Z.of_nat 0 <? n) eqn:Hlt; try discriminate.
  intros H. inversion H; subst. apply Z.ltb_lt in Hlt.
  split; [lia | eauto].
Qed.

(** Between two rounds: with no exactly-one match and no exhausted
    candidate the loop goes on to the next prefix length. *)
Lemma round_continue (array : list (option string)) (n : Z)
    (string : string) (k : nat) :
  in_array array 0 n ->
  (forall item, In item (candidates array 0 n) -> (k < strlen item)%nat) ->
  (forall j, ~ unique_match (candidates array 0 n) string k j) ->
  round array n string k = None.
Proof.
  intros Hin Hlen Hno. unfold round.
  destruct (scan_defined string k array 0 n flags0 Hin) as [st Hs].
  { intros item Hitem. specialize (Hlen item Hitem). lia. }
  rewrite Hs.
  destruct (is_matched st && negb (is_ambiguous st)) eqn:Hb.
  - apply andb_true_iff in Hb. destruct Hb as [Hm Ha].
    apply negb_true_iff in Ha.
    destruct (scan_unique_inv array n string k st Hs Hm Ha) as [j [_ Hu]].
    exfalso. exact (Hno j Hu).
  - destruct (is_null_found st) eqn:Hnf; [|reflexivity].
    destruct (scan_null_found_inv string k array 0 n flags0 st Hs Hnf)
      as [Hf | [item [Hitem Hex]]]; [discriminate|].
    rewrite (exhausted_below_strlen item k (Hlen item Hitem)) in Hex.
    discriminate.
Qed.

(** * Properties of the resolver *)

(** C10. For every table that holds at least one candidate before its
    sentinel, and for every input, [match_string_fuzzy] terminates: the
    prefix-length loop leaves the function after at most as many rounds
    as the first candidate has characters, whatever fuel it is given
    beyond that; the result is a return value or the out-of-bounds read
    [Undefined], never [OutOfFuel]. *)
Theorem match_string_fuzzy_terminates (array : list (option string))
    (n : Z) (string : string) (item0 : String.string)
    (others : list String.string) :
  candidates array 0 n = item0 :: others ->
  exists r, r <> OutOfFuel /\
    forall fuel, (strlen item0 <= fuel)%nat ->
                 match_string_fuzzy fuel array n string = r.
Proof.
  intros Hcs. unfold match_string_fuzzy.
  destruct (find_empty array 0 n) as [[|]|] eqn:Hfe.
  - exists (Return (- ENOENT)). split; [discriminate | reflexivity].
  - destruct (find_empty_false_inv array 0 n Hfe) as [_ Hpos].
    assert (H0 : (0 < strlen item0)%nat)
      by (apply Hpos; rewrite Hcs; left; reflexivity).
    destruct (candidates_cons_inv array n item0 others Hcs)
      as [Hn [rest ->]].
    destruct (match_loop_bounded (Some item0 :: rest) n string (strlen item0)
                (round_first_exhausted item0 rest n string Hn)
                (strlen item0 - 1)%nat 1%nat ltac:(lia))
      as [r [Hne Hall]].
    exists r. split; [exact Hne|]. intros fuel Hf. apply Hall. lia.
  - exists Undefined. split; [discriminate | reflexivity].
Qed.

Lemma match_string_fuzzy_terminates_witness :
  exists r, r <> OutOfFuel /\
    forall fuel, (strlen "tunnel" <= fuel)%nat ->
                 match_string_fuzzy fuel conn_table (MMAL_COUNTOF conn_table)
                   "q" = r.
Proof.
  apply (match_string_fuzzy_terminates conn_table (MMAL_COUNTOF conn_table)
           "q" "tunnel" ["callback"; "queue"]%string).
  reflexivity.
Defined.

(** The hypothesis of C10 is needed: over a table with no candidate the
    loop never leaves. *)
Lemma match_string_fuzzy_empty_table_diverges (string : string) (fuel : nat) :
  match_string_fuzzy fuel [None] (MMAL_COUNTOF [@None String.string]) string
  = OutOfFuel.
Proof.
  unfold match_string_fuzzy. cbn [find_empty MMAL_COUNTOF length].
  change (Z.of_nat 0 <? Z.of_nat 1) with true. cbv iota.
  generalize 1%nat. induction fuel as [|fuel IH]; intros count.
  - reflexivity.
  - cbn [match_loop]. unfold round at 1. cbn. apply IH.
Qed.

(** The round that ends the loop need not be the one at the length of
    the shortest candidate: the scan stops at the second match and can
    leave a shorter candidate unread.  Here the shortest candidate has 2
    characters, round 2 goes on, and the loop ends at round 3. *)
Lemma loop_can_pass_shortest_candidate :
  let array := table_of ["abc"; "abcd"; "ab"]%string in
  shortest (candidates array 0 (MMAL_COUNTOF array)) = 2%nat /\
  round array (MMAL_COUNTOF array) "abc" 2 = None /\
  round array (MMAL_COUNTOF array) "abc" 3 = Some (Return (- ENOTUNIQ)).
Proof. cbv zeta. repeat split. Qed.

(** When the reads stay inside the candidates, a round that leaves the
    function leaves it with a return value. *)
Lemma round_in_bounds (array : list (option string)) (n : Z)
    (string : string) (k : nat) :
  in_array array 0 n ->
  (forall item, In item (candidates array 0 n) -> (k <= strlen item)%nat) ->
  round array n string k = None \/
  exists r, round array n string k = Some (Return r).
Proof.
  intros Hin Hlen. unfold round.
  destruct (scan_defined string k array 0 n flags0 Hin Hlen) as [st Hs].
  rewrite Hs.
  destruct (is_matched st && negb (is_ambiguous st)) eqn:Hb.
  - apply andb_true_iff in Hb. destruct Hb as [Hm Ha].
    apply negb_true_iff in Ha.
    destruct (scan_unique_inv array n string k st Hs Hm Ha) as [i [Hidx _]].
    rewrite Hidx. right. eauto.
  - destruct (is_null_found st); [right; eauto | left; reflexivity].
Qed.

(** Over a table whose first candidate is a shortest one (as in the
    tables for -e, -s, -p and -d), the resolver returns a value for
    every input: no read leaves a candidate. *)
Lemma match_string_fuzzy_returns (array : list (option string)) (n : Z)
    (string : string) (item0 : String.string)
    (others : list String.string) :
  in_array array 0 n ->
  candidates array 0 n = item0 :: others ->
  (forall item, In item others -> (strlen item0 <= strlen item)%nat) ->
  exists r, forall fuel, (strlen item0 <= fuel)%nat ->
                         match_string_fuzzy fuel array n string = Return r.
Proof.
  intros Hin Hcs Hmin. unfold match_string_fuzzy.
  destruct (find_empty array 0 n) as [[|]|] eqn:Hfe.
  - exists (- ENOENT). reflexivity.
  - destruct (find_empty_false_inv array 0 n Hfe) as [_ Hpos].
    assert (H0 : (0 < strlen item0)%nat)
      by (apply Hpos; rewrite Hcs; left; reflexivity).
    assert (Hlen : forall k, (k <= strlen item0)%nat ->
              forall item, In item (candidates array 0 n) ->
                           (k <= strlen item)%nat).
    { intros k Hk item Hitem. rewrite Hcs in Hitem.
      destruct Hitem as [<-|Hitem]; [exact Hk|].
      specialize (Hmin item Hitem). lia. }
    destruct (candidates_cons_inv array n item0 others Hcs)
      as [Hn [rest Harr]].
    assert (Hlast : round array n string (strlen item0) <> None)
      by (rewrite Harr; apply round_first_exhausted; exact Hn).
    assert (Hgen : forall d count, (count + d = strlen item0)%nat ->
              exists r, forall fuel, (d < fuel)%nat ->
                match_loop fuel array n string count = Return r).
    { induction d as [|d IH]; intros count Hcount.
      - replace count with (strlen item0) by lia.
        destruct (round_in_bounds array n string (strlen item0) Hin
                    (Hlen _ (Nat.le_refl _))) as [Hr | [r Hr]];
          [congruence|].
        exists r. intros [|fuel] Hf; [lia|]. cbn [match_loop].
        rewrite Hr. reflexivity.
      - destruct (round_in_bounds array n string count Hin
                    (Hlen count ltac:(lia))) as [Hr | [r Hr]].
        + destruct (IH (S count) ltac:(lia)) as [r Hall].
          exists r. intros [|fuel] Hf; [lia|]. cbn [match_loop].
          rewrite Hr. apply Hall. lia.
        + exists r. intros [|fuel] Hf; [lia|]. cbn [match_loop].
          rewrite Hr. reflexivity. }
    destruct (Hgen (strlen item0 - 1)%nat 1%nat ltac:(lia)) as [r Hall].
    exists r. intros fuel Hf. apply Hall. lia.
  - exfalso. clear - Hin Hfe.
    assert (Hgen : forall (l : list (option String.string)) index,
               in_array l index n -> find_empty l index n <> None).
    { induction l as [|slot l IH]; intros index Hl; cbn [find_empty];
        destruct (Z.of_nat index <? n) eqn:Hlt; try discriminate.
      - apply Z.ltb_lt in Hlt. destruct Hl as [H|[]]. cbn in H. lia.
      - destruct slot as [item|]; [|discriminate].
        destruct (is_nul (deref item)); [discriminate|].
        apply IH. destruct Hl as [H|[H|H]].
        + left. cbn [length] in H. lia.
        + discriminate.
        + right. exact H. }
    exact (Hgen array 0%nat Hin Hfe).
Qed.

(** C1. When no candidate matches the input at any prefix length, the
    resolver returns the ambiguity code [-ENOTUNIQ] at the length of the
    shortest candidate, not [-ENOENT]: the [return -ENOENT] that follows
    the loop is never reached. *)
Theorem no_match_reports_ambiguous (array : list (option string)) (n : Z)
    (string : string) :
  in_array array 0 n ->
  candidates array 0 n <> [] ->
  (forall item, In item (candidates array 0 n) -> (0 < strlen item)%nat) ->
  (forall k item, (1 <= k)%nat -> In item (candidates array 0 n) ->
                  matches item string k = false) ->
  forall fuel, (shortest (candidates array 0 n) <= fuel)%nat ->
    match_string_fuzzy fuel array n string = Return (- ENOTUNIQ) /\
    match_string_fuzzy fuel array n string <> Return (- ENOENT).
Proof.
  intros Hin Hne Hpos Hno fuel Hfuel.
  assert (E : match_string_fuzzy fuel array n string = Return (- ENOTUNIQ)).
  { unfold match_string_fuzzy.
    rewrite (find_empty_false array 0 n Hin Hpos).
    destruct (shortest_in _ Hne) as [item [Hitem Hlen]].
    assert (Hk : (1 <= shortest (candidates array 0 n))%nat)
      by (specialize (Hpos item Hitem); lia).
    apply (match_loop_reach array n string fuel 1
             (shortest (candidates array 0 n))); [lia | |].
    - rewrite round_no_match; [| exact Hin | | ].
      + replace (existsb _ _) with true; [reflexivity|].
        symmetry. apply existsb_exists. exists item. split; [exact Hitem|].
        rewrite <- Hlen. apply exhausted_at_strlen.
      + intros it Hit. apply shortest_le. exact Hit.
      + intros it Hit. apply Hno; [exact Hk | exact Hit].
    - intros k' Hk'. rewrite round_no_match; [| exact Hin | | ].
      + replace (existsb _ _) with false; [reflexivity|].
        symmetry. apply not_true_is_false. intros Hex.
        apply existsb_exists in Hex. destruct Hex as [it [Hit Hex]].
        apply exhausted_strlen_le in Hex.
        pose proof (shortest_le _ _ Hit). lia.
      + intros it Hit. pose proof (shortest_le _ _ Hit). lia.
      + intros it Hit. apply Hno; [lia | exact Hit]. }
  split; [exact E|]. rewrite E. unfold ENOTUNIQ, ENOENT. discriminate.
Qed.

Lemma no_match_reports_ambiguous_witness :
  match_string_fuzzy 6 source_table (MMAL_COUNTOF source_table) "x"
  = Return (- ENOTUNIQ) /\
  match_string_fuzzy 6 source_table (MMAL_COUNTOF source_table) "x"
  <> Return (- ENOENT).
Proof.
  apply (no_match_reports_ambiguous source_table
           (MMAL_COUNTOF source_table) "x").
  - right. cbn. tauto.
  - discriminate.
  - intros item [<-|[<-|[]]]; cbn; lia.
  - intros [|k] item Hk [<-|[<-|[]]]; try lia; reflexivity.
  - cbn. lia.
Defined.

(** C3, as amended. A table with an empty string among its candidates is
    rejected for every input and every fuel, without a candidate index;
    the code returned is [-ENOENT], the code of the not-found failure
    (what [main] reports as "Unknown ..."), and differs from the
    ambiguity code only. *)
Theorem empty_candidate_rejected (array : list (option string)) (n : Z)
    (string : string) (fuel : nat) :
  (exists item, In item (candidates array 0 n) /\ strlen item = 0%nat) ->
  match_string_fuzzy fuel array n string = Return (- ENOENT) /\
  - ENOENT < 0 /\ - ENOENT <> - ENOTUNIQ.
Proof.
  intros Hex. unfold match_string_fuzzy.
  rewrite (find_empty_true array 0 n Hex).
  unfold ENOENT, ENOTUNIQ. repeat split; lia.
Qed.

Lemma empty_candidate_rejected_witness :
  match_string_fuzzy 0 (table_of ["white"; ""; "black"]%string) 4 "white"
  = Return (- ENOENT) /\
  - ENOENT < 0 /\ - ENOENT <> - ENOTUNIQ.
Proof.
  apply (empty_candidate_rejected
           (table_of ["white"; ""; "black"]%string) 4 "white" 0).
  exists ""%string. split; [cbn; tauto | reflexivity].
Defined.

(** C3, as stated, fails: for the table [{"", NULL}] the failure code is
    not distinct from the not-found code. *)
Lemma empty_candidate_code_is_not_distinct :
  ~ (forall (array : list (option string)) (n : Z) (string : string)
            (fuel : nat),
        (exists item, In item (candidates array 0 n) /\ strlen item = 0%nat) ->
        exists e, match_string_fuzzy fuel array n string = Return e /\
                  e < 0 /\ e <> - ENOENT /\ e <> - ENOTUNIQ).
Proof.
  intros H.
  destruct (H (table_of [""%string]) 2 "x"%string 1%nat) as [e [He [_ [Hne _]]]].
  - exists ""%string. split; [cbn; tauto | reflexivity].
  - cbn in He. inversion He. unfold ENOENT in *. lia.
Qed.

(** C4. The table [{"ab", "cde", "cdf", NULL}] has pairwise distinct
    entries, none of which is a prefix of another, and yet its entry
    ["cde"], given in full, is not resolved to its index 1: at prefix
    length 2 both ["cde"] and ["cdf"] match while ["ab"] is exhausted,
    and the resolver returns [-ENOTUNIQ]. *)
Theorem exact_candidate_not_resolved :
  let cs := ["ab"; "cde"; "cdf"]%string in
  NoDup cs /\ prefix_free cs /\
  nth_error cs 1 = Some "cde"%string /\
  forall fuel, (2 <= fuel)%nat ->
    match_string_fuzzy fuel (table_of cs) (MMAL_COUNTOF (table_of cs)) "cde"
    = Return (- ENOTUNIQ).
Proof.
  cbv zeta. repeat split.
  - repeat constructor; cbn; intuition discriminate.
  - intros i j p q Hij Hi Hj.
    destruct i as [|[|[|i]]]; destruct j as [|[|[|j]]]; cbn in Hi, Hj;
      try congruence; try (destruct i; discriminate);
      try (destruct j; discriminate);
      inversion Hi; inversion Hj; subst; reflexivity.
  - intros [|[|fuel]] Hf; try lia. reflexivity.
Qed.

Lemma exact_candidate_not_resolved_witness :
  match_string_fuzzy 2 (table_of ["ab"; "cde"; "cdf"]%string)
    (MMAL_COUNTOF (table_of ["ab"; "cde"; "cdf"]%string)) "cde"
  = Return (- ENOTUNIQ).
Proof.
  apply (proj2 (proj2 (proj2 exact_candidate_not_resolved)) 2%nat). lia.
Defined.

(** The tables that [main] declares do not meet the defect of C4: each of
    their entries, given in full, is resolved to its own index. *)
Lemma shipped_tables_resolve_exact :
  forall array, In array [encoding_table; source_table; pattern_table;
                          dest_table; conn_table] ->
  let cs := candidates array 0 (MMAL_COUNTOF array) in
  map (match_string_fuzzy 8 array (MMAL_COUNTOF array)) cs
  = map (fun i => Return (Z.of_nat i)) (seq 0 (length cs)).
Proof.
  intros array Harr.
  repeat (destruct Harr as [<-|Harr]); try contradiction;
    vm_compute; reflexivity.
Qed.

(** C5, as amended. The resolver returns at the smallest prefix length
    [k >= 1] at which exactly one candidate matches the input, with that
    candidate's index, provided no candidate has fewer than [k]
    characters; it returns that index as soon as it has fuel for [k]
    rounds.  The proviso cannot be dropped: an index that the resolver
    returns is the index of the only candidate that matches at some [k],
    no smaller prefix length has exactly one match, and every candidate
    has been read at index [k], so none of them ends before [k].  In
    particular ["s"] resolves to index 0 and ["c"] to index 1 against
    [{"source", "camera"}]. *)
Theorem returns_at_smallest_unique_prefix :
  (forall (array : list (option string)) (n : Z) (string : string)
          (k i : nat),
      in_array array 0 n -> (1 <= k)%nat ->
      (forall item, In item (candidates array 0 n) -> (k <= strlen item)%nat) ->
      unique_match (candidates array 0 n) string k i ->
      (forall k' j, (1 <= k' < k)%nat ->
                    ~ unique_match (candidates array 0 n) string k' j) ->
      forall fuel, (k <= fuel)%nat ->
        match_string_fuzzy fuel array n string = Return (Z.of_nat i)) /\
  (forall (array : list (option string)) (n : Z) (string : string)
          (fuel : nat) (i : Z),
      match_string_fuzzy fuel array n string = Return i -> 0 <= i ->
      exists k, (1 <= k <= fuel)%nat /\
        unique_match (candidates array 0 n) string k (Z.to_nat i) /\
        (forall k' j, (1 <= k' < k)%nat ->
                      ~ unique_match (candidates array 0 n) string k' j) /\
        (forall item, In item (candidates array 0 n) ->
                      char_at item k <> None)) /\
  (forall fuel, (1 <= fuel)%nat ->
      match_string_fuzzy fuel source_table (MMAL_COUNTOF source_table) "s"
      = Return 0 /\
      match_string_fuzzy fuel source_table (MMAL_COUNTOF source_table) "c"
      = Return 1).
Proof.
  split; [|split].
  - intros array n string k i Hin Hk Hlen Hu Hmin fuel Hfuel.
    unfold match_string_fuzzy. rewrite find_empty_false; [| exact Hin |].
    + apply (match_loop_reach array n string fuel 1 k); [lia | |].
      * apply round_unique; assumption.
      * intros k' Hk'. apply round_continue; [exact Hin | |].
        -- intros item Hitem. specialize (Hlen item Hitem). lia.
        -- intros j. apply Hmin. lia.
    + intros item Hitem. specialize (Hlen item Hitem). lia.
  - intros array n string fuel i H Hi. unfold match_string_fuzzy in H.
    destruct (find_empty array 0 n) as [[|]|]; try discriminate.
    + inversion H. unfold ENOENT in *. lia.
    + destruct (match_loop_inv array n string fuel 1 (Return i) H)
        as [k [Hk [Hr Hbefore]]]; [discriminate|].
      exists k. split; [lia|]. split; [|split].
      * apply round_index; assumption.
      * intros k' j Hk'. apply round_none_inv. apply Hbefore. lia.
      * exact (round_index_reads array n string k i Hr Hi).
  - intros [|fuel] Hf; [lia|]. split; reflexivity.
Qed.

Lemma returns_at_smallest_unique_prefix_witness :
  match_string_fuzzy 1 conn_table 4 "Q" = Return (Z.of_nat 2) /\
  (exists k, (1 <= k <= 3)%nat /\
     unique_match (candidates pattern_table 0 9) "bla" k (Z.to_nat 1) /\
     (forall k' j, (1 <= k' < k)%nat ->
                   ~ unique_match (candidates pattern_table 0 9) "bla" k' j) /\
     (forall item, In item (candidates pattern_table 0 9) ->
                   char_at item k <> None)).
Proof.
  split.
  - apply (proj1 returns_at_smallest_unique_prefix conn_table 4
             "Q"%string 1%nat 2%nat).
    + right. cbn. tauto.
    + lia.
    + intros item [<-|[<-|[<-|[]]]]; cbn; lia.
    + split.
      * exists "queue"%string. split; reflexivity.
      * intros [|[|[|j]]] item Hj Hm; cbn in Hj; inversion Hj; subst;
          try reflexivity; try discriminate.
        destruct j; discriminate.
    + intros k' j Hk'. lia.
    + lia.
  - apply (proj1 (proj2 returns_at_smallest_unique_prefix) pattern_table 9
             "bla"%string 3%nat 1); [reflexivity | lia].
Defined.

(** C5, as stated, fails: against [{"ab", "abcd", NULL}] the input
    ["abc"] has exactly one matching candidate at prefix length 3, the
    candidate ["abcd"] of index 1, and at no smaller length; the
    resolver does not return at length 3, for any fuel.  At length 2
    both candidates match and ["ab"] is exhausted, which ends the search
    with [-ENOTUNIQ]: the rule of C6. *)
Lemma unique_prefix_after_exhaustion_not_returned :
  ~ (forall (array : list (option string)) (n : Z) (string : string)
            (k i : nat),
        (1 <= k)%nat ->
        unique_match (candidates array 0 n) string k i ->
        (forall k' j, (1 <= k' < k)%nat ->
                      ~ unique_match (candidates array 0 n) string k' j) ->
        exists fuel,
          match_string_fuzzy fuel array n string = Return (Z.of_nat i)).
Proof.
  intros H.
  destruct (H (table_of ["ab"; "abcd"]%string) 3 "abc"%string 3%nat 1%nat)
    as [fuel Hfuel].
  - lia.
  - split.
    + exists "abcd"%string. split; reflexivity.
    + intros [|[|[|j]]] item Hj Hm; cbn in Hj; inversion Hj; subst;
        try reflexivity; try discriminate.
  - intros k' j Hk' [_ Hu].
    assert (Hk2 : k' = 1%nat \/ k' = 2%nat) by lia.
    assert (H0 : 0%nat = j)
      by (apply (Hu 0%nat "ab"%string); [reflexivity|];
          destruct Hk2 as [-> | ->]; reflexivity).
    assert (H1 : 1%nat = j)
      by (apply (Hu 1%nat "abcd"%string); [reflexivity|];
          destruct Hk2 as [-> | ->]; reflexivity).
    congruence.
  - destruct fuel as [|[|fuel]]; vm_compute in Hfuel; discriminate.
Qed.

(** What the resolver does on that input, whatever the fuel beyond two
    rounds. *)
Lemma exhausted_match_ends_search (fuel : nat) :
  match_string_fuzzy (S (S fuel)) (table_of ["ab"; "abcd"]%string) 3 "abc"
  = Return (- ENOTUNIQ).
Proof. reflexivity. Qed.

(** C6. Several candidates matching at prefix length [k] do not make the
    resolver fail at [k]: as long as no candidate is exhausted the loop
    goes on with [k + 1].  The ambiguity code is returned only at a
    prefix length at which some candidate has run out of characters, no
    prefix length up to there having exactly one matching candidate.  In
    particular ["c"] is ambiguous against [{"colour", "camera"}]. *)
Theorem ambiguity_needs_exhaustion :
  (forall (array : list (option string)) (n : Z) (string : string) (k : nat),
      in_array array 0 n ->
      several_match (candidates array 0 n) string k ->
      (forall item, In item (candidates array 0 n) -> (k < strlen item)%nat) ->
      round array n string k = None /\
      forall fuel, match_loop (S fuel) array n string k
                   = match_loop fuel array n string (S k)) /\
  (forall (array : list (option string)) (n : Z) (string : string)
          (fuel : nat),
      match_string_fuzzy fuel array n string = Return (- ENOTUNIQ) ->
      exists k item, (1 <= k <= fuel)%nat /\
        In item (candidates array 0 n) /\
        exhausted item k = true /\ (strlen item <= k)%nat /\
        forall k' j, (1 <= k' <= k)%nat ->
                     ~ unique_match (candidates array 0 n) string k' j) /\
  (forall fuel, (6 <= fuel)%nat ->
      match_string_fuzzy fuel (table_of ["colour"; "camera"]%string)
        (MMAL_COUNTOF (table_of ["colour"; "camera"]%string)) "c"
      = Return (- ENOTUNIQ)).
Proof.
  split; [|split].
  - intros array n string k Hin Hsev Hlen.
    assert (Hr : round array n string k = None)
      by (apply round_several; assumption).
    split; [exact Hr|]. intros fuel. cbn [match_loop]. rewrite Hr.
    reflexivity.
  - intros array n string fuel H. unfold match_string_fuzzy in H.
    destruct (find_empty array 0 n) as [[|]|]; try discriminate.
    destruct (match_loop_inv array n string fuel 1 _ H)
      as [k [Hk [Hr Hbefore]]]; [discriminate|].
    destruct (round_ambiguous_inv array n string k Hr)
      as [[item [Hitem Hex]] Hnu].
    exists k, item. split; [lia|]. split; [exact Hitem|].
    split; [exact Hex|]. split; [apply exhausted_strlen_le; exact Hex|].
    intros k' j Hk'. destruct (Nat.eq_dec k' k) as [->|Hne].
    + apply Hnu.
    + apply round_none_inv. apply Hbefore. lia.
  - intros fuel Hf. do 6 (destruct fuel as [|fuel]; [lia|]). reflexivity.
Qed.

Lemma ambiguity_needs_exhaustion_witness :
  (round pattern_table 9 "bl" 1 = None /\
   forall fuel, match_loop (S fuel) pattern_table 9 "bl" 1
                = match_loop fuel pattern_table 9 "bl" 2) /\
  (exists k item, (1 <= k <= 5)%nat /\
     In item (candidates pattern_table 0 9) /\
     exhausted item k = true /\ (strlen item <= k)%nat /\
     forall k' j, (1 <= k' <= k)%nat ->
                  ~ unique_match (candidates pattern_table 0 9) "bl" k' j).
Proof.
  split.
  - apply (proj1 ambiguity_needs_exhaustion pattern_table 9 "bl"%string 1%nat).
    + right. cbn. tauto.
    + exists 1%nat, 6%nat, "black"%string, "blocks"%string.
      repeat split; lia.
    + intros item Hitem. cbn in Hitem.
      repeat (destruct Hitem as [<-|Hitem]; [cbn; lia|]). contradiction.
  - apply (proj1 (proj2 ambiguity_needs_exhaustion) pattern_table 9
             "bl"%string 5%nat).
    reflexivity.
Defined.


(** * Properties of the driver *)

Import Libc Driver.

Lemma bind_continue {A B : Type} (m : M A) (f : A -> M B) (a : A)
    (tr tr' : trace) :
  m tr = Continue a tr' -> bind m f tr = f a tr'.
Proof. intros H. unfold bind. rewrite H. reflexivity. Qed.

Lemma bind_exit {A B : Type} (m : M A) (f : A -> M B) (status : Z)
    (tr tr' : trace) :
  m tr = Exit status tr' -> bind m f tr = Exit status tr'.
Proof. intros H. unfold bind. rewrite H. reflexivity. Qed.

(** The summary only prints. *)
Lemma print_summary_trace (cfg : config) (tr : trace) :
  exists infos, print_summary cfg tr = Continue tt (tr ++ infos) /\
                existsb is_mmal infos = false.
Proof.
  unfold print_summary, print_info, emit, bind.
  eexists. split.
  - repeat rewrite <- app_assoc. cbn [app]. reflexivity.
  - reflexivity.
Qed.

(** C8. With the synthetic generator as source and a nonzero output
    port, [main] prints the summary, reports "Output port must be 0 for
    source source" and exits with [EXIT_FAILURE] without any call into the
    library; with port 0 the check lets the run through unchanged and the
    pipeline starts. *)
Theorem generator_port_is_validated (lib : library) (cfg : config)
    (tr : trace) :
  source cfg = SOURCE_SOURCE ->
  (source_output_port cfg <> 0 ->
   exists infos,
     configured lib cfg tr
     = Exit EXIT_FAILURE
         (tr ++ infos ++ [Error "Output port must be 0 for source source\n" []]) /\
     existsb is_mmal infos = false) /\
  (source_output_port cfg = 0 ->
   (forall tr', validate cfg tr' = Continue tt tr') /\
   exists infos,
     configured lib cfg tr = pipeline lib cfg (tr ++ infos) /\
     existsb is_mmal infos = false).
Proof.
  intros Hsrc. split; intros Hport.
  - destruct (print_summary_trace cfg tr) as [infos [Hsum Hno]].
    exists infos. split; [|exact Hno].
    unfold configured. rewrite (bind_continue _ _ _ _ _ Hsum).
    unfold validate. rewrite Hsrc.
    assert (E : (source_output_port cfg =? 0) = false)
      by (apply Z.eqb_neq; exact Hport).
    rewrite E. cbn. rewrite <- app_assoc. reflexivity.
  - assert (Hval : forall tr', validate cfg tr' = Continue tt tr').
    { intros tr'. unfold validate. rewrite Hsrc, Hport. reflexivity. }
    split; [exact Hval|].
    destruct (print_summary_trace cfg tr) as [infos [Hsum Hno]].
    exists infos. split; [|exact Hno].
    unfold configured. rewrite (bind_continue _ _ _ _ _ Hsum).
    rewrite (bind_continue _ _ _ _ _ (Hval _)). reflexivity.
Qed.

Lemma generator_port_is_validated_witness :
  let cfg := mkConfig ENCODING_I420 1920 1080 1000 SOURCE_SOURCE
               PATTERN_WHITE (-1) 1 DEST_NULL CONN_TUNNEL in
  exists infos,
    configured all_success cfg []
    = Exit EXIT_FAILURE
        ([] ++ infos ++ [Error "Output port must be 0 for source source\n" []]) /\
    existsb is_mmal infos = false.
Proof.
  cbv zeta.
  apply (proj1 (generator_port_is_validated all_success
                  (mkConfig ENCODING_I420 1920 1080 1000 SOURCE_SOURCE
                     PATTERN_WHITE (-1) 1 DEST_NULL CONN_TUNNEL) []
                  eq_refl)).
  discriminate.
Defined.

(** The same from the command line: [-o 1] with the default source. *)
Lemma generator_port_from_command_line :
  main 0 all_success ["bench_conn"; "-o"; "1"]%string
  = Some (EXIT_FAILURE,
          [Info "encoding: %s (%s)\n" [AStr "i420"; AOpaque];
           Info "width: %d\n" [AInt 1920];
           Info "height: %d\n" [AInt 1080];
           Info "msec: %d\n" [AInt 1000];
           Info "source: %s (%s)\n" [AStr "source"; AStr "vc.ril.source"];
           Info "pattern: %s\n" [AStr "white"];
           Info "camera_num: %d\n" [AInt (-1)];
           Info "source_output_port: %d\n" [AInt 1];
           Info "dest: %s (%s)\n" [AStr "null"; AStr "vc.null_sink"];
           Info "conn: %s\n" [AStr "tunnel"];
           Error "Output port must be 0 for source source\n" []]).
Proof. reflexivity. Qed.

(** C7. An option character that [optstring] does not list makes
    [getopt] return ['?'], which [main] takes for the help option: the
    usage is printed and the process exits with [EXIT_SUCCESS], whatever
    follows on the command line. *)
Theorem unrecognized_option_exits_with_success (fuel : nat) (lib : library)
    (progname : string) (c : ascii) (cluster : string) (args : list string) :
  is_nul c = false -> c <> "-"%char ->
  (if Ascii.eqb c ":" then None else optstring_lookup c optstring) = None ->
  main fuel lib (progname :: String "-" (String c cluster) :: args)
  = Some (EXIT_SUCCESS,
          [Stdout "Usage: %s [OPTION]...\n" [AStr progname];
           Stdout usage_text []]).
Proof.
  intros Hnul Hdash Hunknown.
  unfold main, main_body. cbn [getopt].
  assert (E1 : String.eqb (String "-" (String c cluster)) "--" = false).
  { apply String.eqb_neq. intros H. inversion H. congruence. }
  rewrite E1. cbn [deref next]. rewrite Hnul.
  change (Ascii.eqb "-" "-" && negb false) with true. cbv iota.
  cbn [getopt_cluster]. rewrite Hnul, Hunknown.
  destruct (getopt_cluster optstring cluster (hd_error args))
    as [steps taken].
  cbn [app parse_options]. reflexivity.
Qed.

Lemma unrecognized_option_exits_with_success_witness :
  main 0 all_success ["bench_conn"; "-x"]%string
  = Some (EXIT_SUCCESS,
          [Stdout "Usage: %s [OPTION]...\n" [AStr "bench_conn"];
           Stdout usage_text []]).
Proof.
  apply (unrecognized_option_exits_with_success 0 all_success "bench_conn"
           "x" "" []); [reflexivity | discriminate | reflexivity].
Defined.

(** The [default:] case of the [switch], which reports an unknown option
    and fails, is never taken: [getopt] only returns characters of
    [optstring], ['?'] included. *)
Lemma getopt_cluster_known (cluster : string) (following : option string) :
  forall opt optarg,
    In (Got opt optarg) (fst (getopt_cluster optstring cluster following)) ->
    opt = "?"%char \/ optstring_lookup opt optstring <> None.
Proof.
  induction cluster as [|c cluster IH]; intros opt optarg Hin;
    cbn [getopt_cluster] in Hin.
  - destruct Hin.
  - destruct (is_nul c); [destruct Hin|].
    destruct (if Ascii.eqb c ":" then None else optstring_lookup c optstring)
      as [[|]|] eqn:Hc.
    + assert (Hk : optstring_lookup c optstring <> None)
        by (destruct (Ascii.eqb c ":"); congruence).
      destruct (is_nul (deref cluster)).
      * destruct following as [a|]; destruct Hin as [Hin|[]];
          inversion Hin; subst; [right; exact Hk | left; reflexivity].
      * destruct Hin as [Hin|[]]. inversion Hin; subst. right. exact Hk.
    + assert (Hk : optstring_lookup c optstring <> None)
        by (destruct (Ascii.eqb c ":"); congruence).
      destruct (getopt_cluster optstring cluster following) as [steps taken].
      destruct Hin as [Hin|Hin].
      * inversion Hin; subst. right. exact Hk.
      * eapply IH. exact Hin.
    + destruct (getopt_cluster optstring cluster following) as [steps taken].
      destruct Hin as [Hin|Hin].
      * inversion Hin; subst. left. reflexivity.
      * eapply IH. exact Hin.
Qed.

(** C2. The table of the -e option is [{"i420", "rgba", NULL}], not
    the [i420, opaque] of the usage text: ["opaque"] is not one of its
    candidates, it is resolved to [-ENOTUNIQ] and [main] exits with
    [EXIT_FAILURE] on "Encoding is ambiguous", while ["rgba"], a value
    outside [{i420, opaque}], is accepted with index 1. *)
Theorem opaque_encoding_is_rejected :
  candidates encoding_table 0 (MMAL_COUNTOF encoding_table)
  = ["i420"; "rgba"]%string /\
  forall fuel, (4 <= fuel)%nat ->
    match_string_fuzzy fuel encoding_table (MMAL_COUNTOF encoding_table)
      "opaque" = Return (- ENOTUNIQ) /\
    (forall lib progname,
        main fuel lib [progname; "-e"; "opaque"]%string
        = Some (EXIT_FAILURE,
                [Error "Encoding is ambiguous: %s\n" [AStr "opaque"]])) /\
    match_string_fuzzy fuel encoding_table (MMAL_COUNTOF encoding_table)
      "rgba" = Return 1.
Proof.
  split; [reflexivity|].
  intros fuel Hf. do 4 (destruct fuel as [|fuel]; [lia|]).
  repeat split; reflexivity.
Qed.

Lemma opaque_encoding_is_rejected_witness :
  main 4 all_success ["bench_conn"; "-e"; "opaque"]%string
  = Some (EXIT_FAILURE,
          [Error "Encoding is ambiguous: %s\n" [AStr "opaque"]]).
Proof.
  apply (proj2 opaque_encoding_is_rejected 4%nat); lia.
Defined.

(** ** Binary64: rounding of a product *)

Section DoubleFacts.

Lemma digits2_pos_size (p : positive) : digits2_pos p = Pos.size p.
Proof. induction p; cbn; congruence. Qed.

Lemma Zdigits2_bounds (p : positive) :
  2 ^ (Zdigits2 (Zpos p) - 1) <= Zpos p < 2 ^ Zdigits2 (Zpos p).
Proof.
  cbn [Zdigits2]. rewrite digits2_pos_size.
  induction p as [p IH|p IH|].
  - cbn [Pos.size]. rewrite Pos2Z.inj_succ.
    replace (Z.succ (Zpos (Pos.size p)) - 1) with (Z.succ (Zpos (Pos.size p) - 1)) by lia.
    rewrite !Z.pow_succ_r by lia. lia.
  - cbn [Pos.size]. rewrite Pos2Z.inj_succ.
    replace (Z.succ (Zpos (Pos.size p)) - 1) with (Z.succ (Zpos (Pos.size p) - 1)) by lia.
    rewrite !Z.pow_succ_r by lia. lia.
  - cbn. lia.
Qed.

Lemma Zdigits2_unique (p : positive) (d : Z) :
  2 ^ (d - 1) <= Zpos p < 2 ^ d -> Zdigits2 (Zpos p) = d.
Proof.
  intros [Hlo Hhi]. pose proof (Zdigits2_bounds p) as [Blo Bhi].
  assert (Hd : 0 <= d).
  { destruct (Z.neg_nonneg_cases d) as [Hn|Hn]; [|exact Hn].
    rewrite Z.pow_neg_r in Hhi by exact Hn. lia. }
  assert (H0 : 0 < Zdigits2 (Zpos p)) by (cbn; lia).
  destruct (Z.lt_trichotomy (Zdigits2 (Zpos p)) d) as [H|[H|H]].
  - assert (2 ^ Zdigits2 (Zpos p) <= 2 ^ (d - 1))
      by (apply Z.pow_le_mono_r; lia). lia.
  - exact H.
  - assert (2 ^ d <= 2 ^ (Zdigits2 (Zpos p) - 1))
      by (apply Z.pow_le_mono_r; lia). lia.
Qed.

Lemma shr_1_nonneg (m : Z) (r s : bool) :
  0 <= m -> shr_m (shr_1 (Build_shr_record m r s)) = m / 2.
Proof.
  intros Hm. destruct m as [|p|p]; [reflexivity| |lia].
  destruct p as [p|p|]; cbn [shr_1 shr_m].
  - rewrite Pos2Z.inj_xI. apply Z.div_unique with 1; lia.
  - rewrite Pos2Z.inj_xO. apply Z.div_unique with 0; lia.
  - reflexivity.
Qed.

Lemma iter_pos_iter {A : Type} (f : A -> A) (n : positive) :
  forall x, iter_pos f n x = Pos.iter f x n.
Proof.
  induction n as [n IH|n IH|]; intros x; cbn [iter_pos Pos.iter].
  - rewrite !IH. rewrite <- !Pos.iter_swap. reflexivity.
  - rewrite !IH. reflexivity.
  - reflexivity.
Qed.

Lemma iter_shr_m (n : positive) (mrs : shr_record) :
  0 <= shr_m mrs ->
  shr_m (iter_pos shr_1 n mrs) = shr_m mrs / 2 ^ Zpos n.
Proof.
  intros Hm. rewrite iter_pos_iter.
  induction n as [|n IH] using Pos.peano_ind.
  - cbn [Pos.iter]. destruct mrs as [m r s]. cbn [shr_m] in *.
    rewrite shr_1_nonneg by exact Hm. reflexivity.
  - rewrite Pos.iter_succ.
    destruct (Pos.iter shr_1 mrs n) as [m' r' s'] eqn:E. cbn [shr_m] in IH.
    rewrite shr_1_nonneg.
    + rewrite IH. rewrite Pos2Z.inj_succ, Z.pow_succ_r by lia.
      rewrite Z.div_div by lia. f_equal. lia.
    + rewrite IH. apply Z.div_pos; lia.
Qed.

Lemma fexp_normal (x : Z) : -1074 <= x - 53 -> fexp 53 1024 x = x - 53.
Proof. intros H. unfold fexp, emin. lia. Qed.

Lemma round_nearest_even_cases (q : Z) (l : location) :
  round_nearest_even q l = q \/ round_nearest_even q l = q + 1.
Proof.
  destruct l as [|[| |]]; cbn; auto. destruct (Z.even q); auto.
Qed.

(** A mantissa of exactly 53 bits is left as it is. *)
Lemma binary_round_aux_canonical (s : bool) (m : positive) (e : Z) :
  Zdigits2 (Zpos m) = 53 -> -1074 <= e <= 971 ->
  binary_round_aux 53 1024 s (Zpos m) e loc_Exact = S754_finite s m e.
Proof.
  intros Hd He. unfold binary_round_aux, shr_fexp.
  rewrite Hd. rewrite fexp_normal by lia.
  replace (53 + e - 53 - e) with 0 by lia.
  cbn [shr_record_of_loc shr shr_m loc_of_shr_record round_nearest_even].
  rewrite Hd. rewrite fexp_normal by lia.
  replace (53 + e - 53 - e) with 0 by lia.
  cbn [shr_record_of_loc shr shr_m].
  replace (e <=? 1024 - 53) with true by (symmetry; apply Z.leb_le; lia).
  reflexivity.
Qed.

(** Rounding a longer mantissa: the integer part of the result is the
    integer part of the truncated mantissa or of its successor. *)
Lemma binary_round_aux_to_integer (m : positive) (e : Z) :
  53 < Zdigits2 (Zpos m) ->
  -1074 <= e + (Zdigits2 (Zpos m) - 53) <= -2 ->
  exists M',
    (M' = Zpos m / 2 ^ (Zdigits2 (Zpos m) - 53) \/
     M' = Zpos m / 2 ^ (Zdigits2 (Zpos m) - 53) + 1) /\
    Double.to_integer (binary_round_aux 53 1024 false (Zpos m) e loc_Exact)
    = Some (M' / 2 ^ (- (e + (Zdigits2 (Zpos m) - 53)))).
Proof.
  intros HD He.
  pose proof (Zdigits2_bounds m) as [Blo Bhi].
  set (D := Zdigits2 (Zpos m)) in *.
  destruct (D - 53) as [|np|np] eqn:En; try lia.
  unfold binary_round_aux, shr_fexp. fold D.
  rewrite fexp_normal by lia.
  replace (D + e - 53 - e) with (Zpos np) by lia.
  cbn [shr_record_of_loc shr].
  set (n := Zpos np) in *.
  assert (Hn : D = 53 + n) by lia.
  set (mrs := iter_pos shr_1 np (Build_shr_record (Zpos m) false false)).
  assert (Hq : shr_m mrs = Zpos m / 2 ^ n)
    by (unfold mrs; rewrite iter_shr_m by (cbn; lia); reflexivity).
  set (q := Zpos m / 2 ^ n) in *.
  assert (Hpow : 0 < 2 ^ n) by (apply Z.pow_pos_nonneg; lia).
  assert (Hqlo : 2 ^ 52 <= q).
  { unfold q. apply Z.div_le_lower_bound; [exact Hpow|].
    replace (D - 1) with (n + 52) in Blo by lia.
    rewrite Z.pow_add_r in Blo by lia. lia. }
  assert (Hqhi : q < 2 ^ 53).
  { unfold q. apply Z.div_lt_upper_bound; [exact Hpow|].
    rewrite Hn in Bhi. rewrite Z.pow_add_r in Bhi by lia. lia. }
  set (M' := round_nearest_even (shr_m mrs) (loc_of_shr_record mrs)).
  assert (HM : M' = q \/ M' = q + 1).
  { unfold M'. rewrite Hq. apply round_nearest_even_cases. }
  exists M'. split; [exact HM|].
  assert (HMpos : 2 ^ 52 <= M' <= 2 ^ 53) by lia.
  destruct M' as [|mp|mp] eqn:EM; try lia.
  destruct (Z.eq_dec (Zpos mp) (2 ^ 53)) as [Hmax|Hlt].
  - (* the rounding carried into a 54th bit *)
    assert (Hd54 : Zdigits2 (Zpos mp) = 54)
      by (apply Zdigits2_unique; rewrite Hmax; cbn; lia).
    rewrite Hd54. rewrite fexp_normal by lia.
    replace (54 + (e + n) - 53 - (e + n)) with 1 by lia.
    cbn [shr_record_of_loc shr iter_pos].
    rewrite shr_1_nonneg by lia.
    rewrite Hmax. change (2 ^ 53 / 2) with (Zpos (2 ^ 52)).
    replace (e + n + 1 <=? 1024 - 53) with true
      by (symmetry; apply Z.leb_le; lia).
    cbn [Double.to_integer].
    replace (0 <=? e + n + 1) with false by (symmetry; apply Z.leb_gt; lia).
    f_equal.
    replace (- (e + n)) with (1 + - (e + n + 1)) by lia.
    rewrite Z.pow_add_r by lia. rewrite <- Z.div_div by lia.
    reflexivity.
  - assert (Hd53 : Zdigits2 (Zpos mp) = 53)
      by (apply Zdigits2_unique; cbn in *; lia).
    rewrite Hd53. rewrite fexp_normal by lia.
    replace (53 + (e + n) - 53 - (e + n)) with 0 by lia.
    cbn [shr_record_of_loc shr shr_m].
    replace (e + n <=? 1024 - 53) with true
      by (symmetry; apply Z.leb_le; lia).
    cbn [Double.to_integer].
    replace (0 <=? e + n) with false by (symmetry; apply Z.leb_gt; lia).
    reflexivity.
Qed.

Lemma pos_iter_xO (p k : positive) :
  Zpos (Pos.iter xO p k) = Zpos p * 2 ^ Zpos k.
Proof.
  induction k as [|k IH] using Pos.peano_ind.
  - cbn [Pos.iter]. rewrite Pos2Z.inj_xO. lia.
  - rewrite Pos.iter_succ, Pos2Z.inj_xO, IH.
    rewrite Pos2Z.inj_succ, Z.pow_succ_r by lia. lia.
Qed.

(** The conversion of a positive [int] normalises it to 53 bits. *)
Lemma of_int_normalised (p : positive) :
  Zpos p < 2 ^ 31 ->
  exists (mz k : positive),
    Double.of_int (Zpos p) = S754_finite false mz (- Zpos k) /\
    Zpos mz = Zpos p * 2 ^ Zpos k /\
    22 <= Zpos k <= 52 /\ 2 ^ 52 <= Zpos mz < 2 ^ 53.
Proof.
  intros Hp.
  pose proof (Zdigits2_bounds p) as [Blo Bhi].
  assert (Hd : 1 <= Zdigits2 (Zpos p) <= 31).
  { split; [cbn; lia|].
    destruct (Z.le_gt_cases (Zdigits2 (Zpos p)) 31) as [H|H]; [exact H|].
    assert (2 ^ 31 <= 2 ^ (Zdigits2 (Zpos p) - 1))
      by (apply Z.pow_le_mono_r; lia). lia. }
  unfold Double.of_int, Double.prec, Double.emax, binary_normalize, binary_round, shl_align.
  change (Zpos (digits2_pos p)) with (Zdigits2 (Zpos p)).
  set (d := Zdigits2 (Zpos p)) in *.
  rewrite Z.add_0_r. rewrite fexp_normal by lia.
  destruct (d - 53 - 0) as [|k|k] eqn:Ek; try lia.
  exists (Pos.iter xO p k), k.
  assert (Hk : d - 53 = - Zpos k) by lia.
  assert (Hmz : Zpos (Pos.iter xO p k) = Zpos p * 2 ^ Zpos k)
    by apply pos_iter_xO.
  assert (Hpow : 2 ^ 53 = 2 ^ (d - 1) * 2 ^ Zpos k * 2).
  { replace 53 with ((d - 1) + Zpos k + 1) at 1 by lia.
    rewrite !Z.pow_add_r by lia. reflexivity. }
  assert (Hpow' : 2 ^ d = 2 ^ (d - 1) * 2).
  { replace d with ((d - 1) + 1) at 1 by lia.
    rewrite Z.pow_add_r by lia. reflexivity. }
  assert (Hpk : 0 < 2 ^ Zpos k) by (apply Z.pow_pos_nonneg; lia).
  assert (Hrange : 2 ^ 52 <= Zpos (Pos.iter xO p k) < 2 ^ 53).
  { rewrite Hmz.
    replace (2 ^ 52) with (2 ^ (d - 1) * 2 ^ Zpos k)
      by (change (2 ^ 52) with (2 ^ 53 / 2); rewrite Hpow;
          rewrite Z.div_mul by lia; reflexivity).
    rewrite Hpow. nia. }
  split; [|split; [exact Hmz | split; [lia | exact Hrange]]].
  rewrite Hk. apply binary_round_aux_canonical; [|lia].
  apply Zdigits2_unique. exact Hrange.
Qed.

(** [msec * 1e-3], truncated, is the number of whole seconds. *)
Lemma seconds_exact (p : positive) :
  Zpos p < 2 ^ 31 ->
  Double.to_integer (Double.mul (Double.of_int (Zpos p)) Double.lit_1e_3) = Some (Zpos p / 1000).
Proof.
  intros Hp.
  destruct (of_int_normalised p Hp) as [mz [k [Hof [Hmz [Hk Hrange]]]]].
  rewrite Hof. unfold Double.mul, Double.lit_1e_3, Double.prec, Double.emax. cbn [SFmul xorb].
  set (C := 4611686018427388%positive) in *.
  assert (HC : 1000 * Zpos C = 2 ^ 62 + 96) by reflexivity.
  set (m := (mz * C)%positive).
  assert (Hm : Zpos m = Zpos mz * Zpos C) by reflexivity.
  pose proof (Zdigits2_bounds m) as [Blo Bhi].
  assert (Hmrange : 2 ^ 104 <= Zpos m < 2 ^ 106).
  { rewrite Hm. change (2 ^ 104) with (2 ^ 52 * 2 ^ 52).
    change (2 ^ 106) with (2 ^ 53 * 2 ^ 53).
    assert (2 ^ 52 <= Zpos C < 2 ^ 53) by (cbn; lia). nia. }
  assert (HD : Zdigits2 (Zpos m) = 105 \/ Zdigits2 (Zpos m) = 106).
  { assert (0 < Zdigits2 (Zpos m)) by (cbn; lia).
    destruct (Z.le_gt_cases (Zdigits2 (Zpos m)) 104) as [H1|H1].
    - assert (2 ^ Zdigits2 (Zpos m) <= 2 ^ 104)
        by (apply Z.pow_le_mono_r; lia). lia.
    - destruct (Z.le_gt_cases 107 (Zdigits2 (Zpos m))) as [H2|H2]; [|lia].
      assert (2 ^ 106 <= 2 ^ (Zdigits2 (Zpos m) - 1))
        by (apply Z.pow_le_mono_r; lia). lia. }
  destruct (binary_round_aux_to_integer m (- Zpos k + -62))
    as [M' [HM Hres]]; [lia | lia |].
  rewrite Hres. f_equal.
  set (K := Zpos p / 1000).
  assert (HK : 1000 * K <= Zpos p < 1000 * K + 1000).
  { unfold K. pose proof (Z.mul_div_le (Zpos p) 1000 ltac:(lia)).
    pose proof (Z.mul_succ_div_gt (Zpos p) 1000 ltac:(lia)). lia. }
  assert (HK0 : 0 <= K) by (unfold K; apply Z.div_pos; lia).
  set (P2 := 2 ^ Zpos k) in *.
  assert (HP2 : 2 ^ 22 <= P2) by (apply Z.pow_le_mono_r; lia).
  set (KP := K * P2).
  assert (HKP : 1000 * KP <= Zpos mz <= 1000 * KP + 999 * P2)
    by (unfold KP; rewrite Hmz; nia).
  assert (HKP0 : 0 <= KP) by (unfold KP; nia).
  set (s := Zdigits2 (Zpos m) - 53) in *.
  set (t := - (- Zpos k + -62 + s)).
  assert (Ht : 0 <= t) by (unfold t; lia).
  assert (Hs : 0 <= s) by lia.
  assert (HST : 2 ^ s * 2 ^ t = 2 ^ 62 * P2).
  { unfold P2. rewrite <- !Z.pow_add_r by lia. f_equal. unfold t. lia. }
  set (S := 2 ^ s) in *. set (T := 2 ^ t) in *.
  assert (HT : 0 < T) by (apply Z.pow_pos_nonneg; lia).
  assert (HS : S = 2 ^ 52 \/ S = 2 ^ 53).
  { unfold S, s. destruct HD as [-> | ->]; [left | right]; reflexivity. }
  set (q := Zpos m / S) in *.
  assert (HSpos : 0 < S) by (destruct HS as [-> | ->]; reflexivity).
  assert (Hq : S * q <= Zpos m < S * q + S).
  { unfold q. pose proof (Z.mul_div_le (Zpos m) S HSpos).
    pose proof (Z.mul_succ_div_gt (Zpos m) S HSpos). lia. }
  assert (HKT : S * (K * T) = 2 ^ 62 * KP).
  { unfold KP. transitivity (K * (S * T)); [ring | rewrite HST; ring]. }
  set (KT := K * T) in *.
  assert (HKTdef : KT = K * T) by reflexivity.
  assert (Hm1000 : 1000 * Zpos m = (2 ^ 62 + 96) * Zpos mz)
    by (rewrite Hm, <- HC; ring).
  clearbody C m KP KT q T P2. clear Hres Hof.
  symmetry. apply Z.div_unique_pos with (M' - KT).
  - change (2 ^ 62) with 4611686018427387904 in *.
    change (2 ^ 52) with 4503599627370496 in *.
    change (2 ^ 53) with 9007199254740992 in *.
    change (2 ^ 22) with 4194304 in *.
    destruct HS as [HS | HS]; rewrite HS in *; lia.
  - rewrite HKTdef. ring.
Qed.

(** The literal is the correctly rounded quotient of 1 by 1000. *)
Lemma lit_1e_3_correctly_rounded :
  SFdiv Double.prec Double.emax (Double.of_int 1) (Double.of_int 1000)
  = Double.lit_1e_3.
Proof. vm_compute. reflexivity. Qed.

(** [(msec % 1000) * 1e6] is exact. *)
Lemma nanoseconds_exact (r : Z) :
  0 <= r < 1000 ->
  Double.to_integer (Double.mul (Double.of_int r) Double.lit_1e6)
  = Some (r * 1000000).
Proof.
  intros Hr.
  assert (Hall : forallb
            (fun n => match Double.to_integer
                              (Double.mul (Double.of_int (Z.of_nat n))
                                          Double.lit_1e6) with
                      | Some v => v =? Z.of_nat n * 1000000
                      | None => false
                      end) (seq 0 1000) = true)
    by (vm_compute; reflexivity).
  rewrite forallb_forall in Hall.
  specialize (Hall (Z.to_nat r)). rewrite Z2Nat.id in Hall by lia.
  assert (Hin : In (Z.to_nat r) (seq 0 1000)) by (apply in_seq; lia).
  specialize (Hall Hin).
  destruct (Double.to_integer _) as [v|]; [|discriminate].
  apply Z.eqb_eq in Hall. congruence.
Qed.

End DoubleFacts.

(** C9. For a duration [0 <= msec <= INT_MAX] the interval given to
    [nanosleep] has [msec / 1000] seconds and [(msec mod 1000) * 10^6]
    nanoseconds, which is [msec] milliseconds exactly: the two products
    in [double] lose nothing once they are converted back to integers. *)
Theorem sleep_interval_exact (ms : Z) :
  0 <= ms < 2 ^ 31 ->
  sleep_interval ms = Some (ms / 1000, (ms mod 1000) * 10 ^ 6) /\
  (ms / 1000) * 10 ^ 9 + (ms mod 1000) * 10 ^ 6 = ms * 10 ^ 6 /\
  forall cfg tr, msec cfg = ms ->
    sleep cfg tr
    = Continue tt
        (tr ++ [Info "Sleeping for %d milliseconds\n" [AInt ms];
                Nanosleep (ms / 1000) ((ms mod 1000) * 10 ^ 6)]).
Proof.
  intros Hms.
  assert (Hrem : Z.rem ms 1000 = ms mod 1000)
    by (apply Z.rem_mod_nonneg; lia).
  assert (Hmod : 0 <= ms mod 1000 < 1000) by (apply Z.mod_pos_bound; lia).
  assert (Hint : sleep_interval ms = Some (ms / 1000, (ms mod 1000) * 10 ^ 6)).
  { unfold sleep_interval. rewrite Hrem.
    rewrite (nanoseconds_exact _ Hmod).
    destruct ms as [|p|p]; [reflexivity | | lia].
    rewrite (seconds_exact p) by lia. reflexivity. }
  split; [exact Hint|]. split.
  - pose proof (Z.div_mod ms 1000 ltac:(lia)) as Hdm.
    change (10 ^ 9) with 1000000000. change (10 ^ 6) with 1000000. lia.
  - intros cfg tr Hcfg. unfold sleep, print_info, emit, bind.
    rewrite Hcfg, Hint. rewrite <- app_assoc. reflexivity.
Qed.

Lemma sleep_interval_exact_witness :
  sleep_interval 2147483647
  = Some (2147483647 / 1000, (2147483647 mod 1000) * 10 ^ 6).
Proof.
  apply (sleep_interval_exact 2147483647). lia.
Defined.

(** A failing library call does end the process with [EXIT_FAILURE] ... *)
Lemma check_mmal_failure (lib : library) (call : mmal_call) (tr : trace) :
  lib tr call <> MMAL_SUCCESS ->
  check_mmal lib call tr
  = Exit EXIT_FAILURE
      (tr ++ [Mmal call (lib tr call);
              Error "MMAL call failed: %s (0x%08x)\n"
                    [AOpaque; AInt (lib tr call)]]).
Proof.
  intros H. unfold check_mmal.
  replace (lib tr call =? MMAL_SUCCESS) with false
    by (symmetry; apply Z.eqb_neq; exact H).
  unfold bind, print_error, emit, exit. rewrite <- app_assoc. reflexivity.
Qed.

(** ... and so do arguments left after the options; but an option that
    lacks its argument is taken for the help option, like an unknown
    one. *)
Lemma extra_argument_exits_with_failure :
  main 0 all_success ["bench_conn"; "extra"]%string
  = Some (EXIT_FAILURE, [Error "Extra argument(s) after options\n" []]).
Proof. reflexivity. Qed.

Lemma missing_argument_exits_with_success :
  main 0 all_success ["bench_conn"; "-w"]%string
  = Some (EXIT_SUCCESS,
          [Stdout "Usage: %s [OPTION]...\n" [AStr "bench_conn"];
           Stdout usage_text []]).
Proof. reflexivity. Qed.

(** * Further properties of the resolver *)

Section CaseFolding.

Lemma tolower_idempotent (c : ascii) : tolower (tolower c) = tolower c.
Proof. destruct c as [[] [] [] [] [] [] [] []]; reflexivity. Qed.

Lemma is_nul_tolower (c : ascii) : is_nul (tolower c) = is_nul c.
Proof. destruct c as [[] [] [] [] [] [] [] []]; reflexivity. Qed.

Lemma deref_casefold (s : string) : deref (casefold s) = tolower (deref s).
Proof. destruct s; reflexivity. Qed.

Lemma next_casefold (s : string) : next (casefold s) = casefold (next s).
Proof. destruct s; reflexivity. Qed.

Lemma strncasecmp_casefold (k : nat) :
  forall s1 s2,
    strncasecmp (casefold s1) (casefold s2) k = strncasecmp s1 s2 k.
Proof.
  induction k as [|k IH]; intros s1 s2; cbn [strncasecmp]; [reflexivity|].
  rewrite !deref_casefold, !tolower_idempotent, is_nul_tolower,
    !next_casefold, IH.
  reflexivity.
Qed.

Lemma strncasecmp_casefold_r (k : nat) (s1 s2 : string) :
  strncasecmp s1 (casefold s2) k = strncasecmp s1 s2 k.
Proof.
  rewrite <- (strncasecmp_casefold k s1 (casefold s2)).
  rewrite <- (strncasecmp_casefold k s1 s2).
  f_equal. clear. induction s2 as [|c s2 IH]; cbn [casefold];
    [reflexivity | rewrite tolower_idempotent, IH; reflexivity].
Qed.

Lemma char_at_casefold (s : string) (k : nat) :
  char_at (casefold s) k = option_map tolower (char_at s k).
Proof.
  revert k. induction s as [|c s IH]; intros [|k]; cbn; auto.
Qed.

(** Two tables that differ by the case of their letters. *)
Lemma find_empty_casefold (array array' : list (option string)) :
  map (option_map casefold) array = map (option_map casefold) array' ->
  forall index n, find_empty array index n = find_empty array' index n.
Proof.
  revert array'. induction array as [|slot rest IH];
    intros [|slot' rest'] H index n; try discriminate; [reflexivity|].
  cbn [map] in H. injection H as Hslot Hrest.
  cbn [find_empty]. destruct (Z.of_nat index <? n); [|reflexivity].
  destruct slot as [item|], slot' as [item'|]; try discriminate;
    [|reflexivity].
  cbn [option_map] in Hslot. injection Hslot as Hitem.
  rewrite <- (is_nul_tolower (deref item)), <- (is_nul_tolower (deref item')).
  rewrite <- !deref_casefold, Hitem.
  destruct (is_nul _); [reflexivity | apply IH; exact Hrest].
Qed.

Lemma scan_casefold (string string' : string) (k : nat)
    (array array' : list (option String.string)) :
  casefold string = casefold string' ->
  map (option_map casefold) array = map (option_map casefold) array' ->
  forall index n st,
    scan array index n string k st = scan array' index n string' k st.
Proof.
  intros Hs. revert array'. induction array as [|slot rest IH];
    intros [|slot' rest'] H index n st; try discriminate; [reflexivity|].
  cbn [map] in H. injection H as Hslot Hrest.
  cbn [scan]. destruct (Z.of_nat index <? n); [|reflexivity].
  destruct slot as [item|], slot' as [item'|]; try discriminate;
    [|reflexivity].
  cbn [option_map] in Hslot. injection Hslot as Hitem.
  assert (Hc : option_map tolower (char_at item k)
               = option_map tolower (char_at item' k))
    by (rewrite <- !char_at_casefold, Hitem; reflexivity).
  assert (Hcmp : strncasecmp item string k = strncasecmp item' string' k).
  { rewrite <- (strncasecmp_casefold k item string).
    rewrite <- (strncasecmp_casefold k item' string').
    rewrite Hitem, Hs. reflexivity. }
  destruct (char_at item k) as [c|], (char_at item' k) as [c'|];
    try discriminate; [|reflexivity].
  cbn [option_map] in Hc. injection Hc as Hc.
  cbv zeta. rewrite Hcmp.
  assert (Hn : is_nul c = is_nul c')
    by (rewrite <- (is_nul_tolower c), <- (is_nul_tolower c'), Hc;
        reflexivity).
  rewrite Hn.
  destruct (strncasecmp item' string' k =? 0).
  - destruct (is_matched _); [reflexivity | apply IH; exact Hrest].
  - apply IH; exact Hrest.
Qed.

Lemma match_loop_casefold (fuel : nat)
    (array array' : list (option String.string)) (n : Z)
    (string string' : String.string) :
  casefold string = casefold string' ->
  map (option_map casefold) array = map (option_map casefold) array' ->
  forall count, match_loop fuel array n string count
                = match_loop fuel array' n string' count.
Proof.
  intros Hs Ha.
  induction fuel as [|fuel IH]; intros count;
    cbn [match_loop]; [reflexivity|].
  unfold round. rewrite (scan_casefold string string' count array array' Hs Ha).
  destruct (scan array' 0 n string' count flags0) as [st|]; [|reflexivity].
  destruct (is_matched st && negb (is_ambiguous st));
    [destruct (matched_index st); reflexivity|].
  destruct (is_null_found st); [reflexivity | apply IH].
Qed.

End CaseFolding.

(** X1. The resolver does not look at the case of letters, neither in
    the input nor in the table: inputs and tables that are equal once
    folded to lower case are resolved alike, whatever the fuel. *)
Theorem resolver_ignores_case (fuel : nat)
    (array array' : list (option string)) (n : Z) (string string' : string) :
  casefold string = casefold string' ->
  map (option_map casefold) array = map (option_map casefold) array' ->
  match_string_fuzzy fuel array n string
  = match_string_fuzzy fuel array' n string'.
Proof.
  intros Hs Ha. unfold match_string_fuzzy.
  rewrite (find_empty_casefold array array' Ha).
  destruct (find_empty array' 0 n) as [[|]|]; try reflexivity.
  apply match_loop_casefold; assumption.
Qed.

Lemma resolver_ignores_case_witness :
  match_string_fuzzy 3 pattern_table 9 "BLa"
  = match_string_fuzzy 3
      (table_of ["White"; "BLACK"; "Diagonal"; "noise"; "RANDOM"; "colour";
                 "Blocks"; "swirly"]%string) 9 "bLA".
Proof.
  apply (resolver_ignores_case 3 pattern_table
           (table_of ["White"; "BLACK"; "Diagonal"; "noise"; "RANDOM";
                      "colour"; "Blocks"; "swirly"]%string) 9 "BLa" "bLA");
    reflexivity.
Defined.

(** ** What the resolver can return *)

Lemma round_return_cases (array : list (option string)) (n : Z)
    (string : string) (k : nat) (r : Z) :
  round array n string k = Some (Return r) ->
  r = - ENOTUNIQ \/ 0 <= r.
Proof.
  unfold round.
  destruct (scan array 0 n string k flags0) as [st|] eqn:Hs; [|discriminate].
  destruct (is_matched st && negb (is_ambiguous st)) eqn:Hb.
  - apply andb_true_iff in Hb. destruct Hb as [Hm Ha].
    apply negb_true_iff in Ha.
    destruct (scan_unique_inv array n string k st Hs Hm Ha) as [i [Hidx _]].
    rewrite Hidx. intros H. inversion H. right. lia.
  - destruct (is_null_found st); [|discriminate].
    intros H. inversion H. left. reflexivity.
Qed.

(** A candidate sits in the array at its own position. *)
Lemma candidates_nth_array (array : list (option string)) :
  forall (index : nat) (n : Z) (j : nat) (item : string),
    nth_error (candidates array index n) j = Some item ->
    nth_error array j = Some (Some item) /\ Z.of_nat (index + j) < n.
Proof.
  induction array as [|slot rest IH]; intros index n j item H;
    cbn [candidates] in H; destruct (Z.of_nat index <? n) eqn:Hlt;
    try (destruct j; discriminate).
  destruct slot as [item0|]; [|destruct j; discriminate].
  apply Z.ltb_lt in Hlt. destruct j as [|j]; cbn in H.
  - inversion H; subst. split; [reflexivity | lia].
  - destruct (IH _ _ _ _ H) as [Hn Hb]. split; [exact Hn | lia].
Qed.

(** X2. Whatever the table, the input and the fuel, a value returned by
    the resolver is [-ENOENT], [-ENOTUNIQ], or the position of a
    candidate of the table, below [n]: [main] can index its tables with
    it. *)
Theorem resolver_result_in_range (fuel : nat) (array : list (option string))
    (n : Z) (string : string) (r : Z) :
  match_string_fuzzy fuel array n string = Return r ->
  r = - ENOENT \/ r = - ENOTUNIQ \/
  (0 <= r < n /\
   exists item, nth_error array (Z.to_nat r) = Some (Some item) /\
                matches item string 1 = true).
Proof.
  unfold match_string_fuzzy. intros H.
  destruct (find_empty array 0 n) as [[|]|]; try discriminate.
  - inversion H. left. reflexivity.
  - right.
    destruct (match_loop_inv array n string fuel 1 (Return r) H)
      as [k [Hk [Hr _]]]; [discriminate|].
    destruct (round_return_cases array n string k r Hr) as [Hu | Hpos];
      [left; exact Hu | right].
    destruct (round_index array n string k r Hr Hpos)
      as [[item [Hnth Hm]] _].
    destruct (candidates_nth_array array 0 n _ item Hnth) as [Harr Hb].
    split; [split; [exact Hpos|] |].
    + lia.
    + exists item. split; [exact Harr|].
      apply (matches_le item string k 1); [lia | exact Hm].
Qed.

Lemma resolver_result_in_range_witness :
  2 = - ENOENT \/ 2 = - ENOTUNIQ \/
  (0 <= 2 < 9 /\
   exists item, nth_error pattern_table (Z.to_nat 2) = Some (Some item) /\
                matches item "dia" 1 = true).
Proof.
  apply (resolver_result_in_range 1 pattern_table 9 "dia" 2). reflexivity.
Defined.

(** X3. The empty input never selects a candidate: the resolver can only
    answer it with one of its two failure codes. *)
Theorem empty_input_is_never_resolved (fuel : nat)
    (array : list (option string)) (n : Z) (r : Z) :
  match_string_fuzzy fuel array n "" = Return r ->
  r = - ENOENT \/ r = - ENOTUNIQ.
Proof.
  intros H. unfold match_string_fuzzy in H.
  destruct (find_empty array 0 n) as [[|]|] eqn:Hfe; try discriminate.
  - inversion H. left. reflexivity.
  - right.
    destruct (find_empty_false_inv array 0 n Hfe) as [_ Hpos].
    destruct (match_loop_inv array n "" fuel 1 (Return r) H)
      as [k [Hk [Hr _]]]; [discriminate|].
    destruct (round_return_cases array n "" k r Hr) as [Hu | Hge];
      [exact Hu | exfalso].
    destruct (round_index array n "" k r Hr Hge) as [[item [Hnth Hm]] _].
    apply nth_error_In in Hnth. specialize (Hpos item Hnth).
    apply (matches_le item "" k 1) in Hm; [|lia].
    apply strlen_pos in Hpos.
    unfold matches in Hm. cbn [strncasecmp deref] in Hm.
    destruct (code (tolower (deref item)) - code (tolower NUL) =? 0) eqn:E.
    + apply Z.eqb_eq in E.
      assert (Hz : is_nul (tolower (deref item)) = true)
        by (unfold is_nul; apply Z.eqb_eq; change (code (tolower NUL)) with 0 in E; lia).
      rewrite is_nul_tolower in Hz. congruence.
    + rewrite E in Hm. discriminate.
Qed.

Lemma empty_input_is_never_resolved_witness :
  - ENOTUNIQ = - ENOENT \/ - ENOTUNIQ = - ENOTUNIQ.
Proof.
  apply (empty_input_is_never_resolved 4 dest_table 3 (- ENOTUNIQ)).
  reflexivity.
Defined.

(** X6. With a count [n <= 0] (the doc comment reserves the negative
    counts for NULL-terminated arrays), or with [NULL] as first entry,
    no loop body ever runs a candidate and the prefix-length loop never
    leaves the function. *)
Theorem no_candidate_no_return (fuel : nat) (array : list (option string))
    (n : Z) (string : string) :
  n <= 0 \/ (exists rest, array = None :: rest) ->
  match_string_fuzzy fuel array n string = OutOfFuel.
Proof.
  intros H.
  assert (Hfe : find_empty array 0 n = Some false).
  { destruct H as [Hn | [rest ->]].
    - destruct array as [|slot rest']; cbn [find_empty];
        destruct (Z.of_nat 0 <? n) eqn:Hlt; try reflexivity;
        apply Z.ltb_lt in Hlt; lia.
    - cbn [find_empty]. destruct (Z.of_nat 0 <? n); reflexivity. }
  assert (Hscan : forall count,
             scan array 0 n string count flags0 = Some flags0).
  { intros count. destruct H as [Hn | [rest ->]].
    - destruct array as [|slot rest']; cbn [scan];
        destruct (Z.of_nat 0 <? n) eqn:Hlt; try reflexivity;
        apply Z.ltb_lt in Hlt; lia.
    - cbn [scan]. destruct (Z.of_nat 0 <? n); reflexivity. }
  unfold match_string_fuzzy. rewrite Hfe.
  generalize 1%nat. induction fuel as [|fuel IH]; intros count;
    cbn [match_loop]; [reflexivity|].
  unfold round. rewrite Hscan. cbn. apply IH.
Qed.

Lemma no_candidate_no_return_witness :
  match_string_fuzzy 1000 source_table (-1) "source" = OutOfFuel.
Proof.
  apply (no_candidate_no_return 1000 source_table (-1) "source").
  left. lia.
Defined.

(** ** Two ways to end a table *)

Section Sentinel.

Variable junk : list (option string).
Variable n : Z.

Lemma find_empty_sentinel (cs : list string) :
  forall index,
    Z.of_nat (index + length cs) < n ->
    find_empty (map Some cs ++ None :: junk) index n
    = find_empty (map Some cs) index (Z.of_nat (index + length cs)).
Proof.
  induction cs as [|item cs IH]; intros index Hn; cbn [map app find_empty length] in *.
  - replace (Z.of_nat index <? n) with true by (symmetry; apply Z.ltb_lt; lia).
    replace (Z.of_nat index <? Z.of_nat (index + 0)) with false
      by (symmetry; apply Z.ltb_ge; lia).
    reflexivity.
  - replace (Z.of_nat index <? n) with true by (symmetry; apply Z.ltb_lt; lia).
    replace (Z.of_nat index <? Z.of_nat (index + S (length cs))) with true
      by (symmetry; apply Z.ltb_lt; lia).
    destruct (is_nul (deref item)); [reflexivity|].
    rewrite IH by lia. f_equal. lia.
Qed.

Lemma scan_sentinel (string : string) (k : nat) (cs : list String.string) :
  forall index st,
    Z.of_nat (index + length cs) < n ->
    scan (map Some cs ++ None :: junk) index n string k st
    = scan (map Some cs) index (Z.of_nat (index + length cs)) string k st.
Proof.
  induction cs as [|item cs IH]; intros index st Hn;
    cbn [map app scan length] in *.
  - replace (Z.of_nat index <? n) with true by (symmetry; apply Z.ltb_lt; lia).
    replace (Z.of_nat index <? Z.of_nat (index + 0)) with false
      by (symmetry; apply Z.ltb_ge; lia).
    reflexivity.
  - replace (Z.of_nat index <? n) with true by (symmetry; apply Z.ltb_lt; lia).
    replace (Z.of_nat index <? Z.of_nat (index + S (length cs))) with true
      by (symmetry; apply Z.ltb_lt; lia).
    assert (E : (index + S (length cs) = S index + length cs)%nat) by lia.
    destruct (char_at item k) as [c|]; [|reflexivity]. cbv zeta.
    destruct (strncasecmp item string k =? 0).
    + destruct (is_matched _); [reflexivity|].
      rewrite IH by lia. rewrite E. reflexivity.
    + rewrite IH by lia. rewrite E. reflexivity.
Qed.

End Sentinel.

(** X7. A table can be ended by its count or by a [NULL] sentinel, with
    the same result: when the count reaches past the sentinel, the
    sentinel, whatever follows it and the exact count are not looked at. *)
Theorem sentinel_or_count (fuel : nat) (cs : list string)
    (junk : list (option string)) (n : Z) (string : string) :
  Z.of_nat (length cs) < n ->
  match_string_fuzzy fuel (map Some cs ++ None :: junk) n string
  = match_string_fuzzy fuel (map Some cs) (Z.of_nat (length cs)) string.
Proof.
  intros Hn. unfold match_string_fuzzy.
  rewrite (find_empty_sentinel junk n cs 0) by (cbn; lia).
  cbn [Nat.add].
  destruct (find_empty (map Some cs) 0 (Z.of_nat (length cs))) as [[|]|];
    try reflexivity.
  generalize 1%nat. induction fuel as [|fuel IH]; intros count;
    cbn [match_loop]; [reflexivity|].
  unfold round.
  rewrite (scan_sentinel junk n string count cs 0 flags0) by (cbn; lia).
  cbn [Nat.add].
  destruct (scan (map Some cs) 0 (Z.of_nat (length cs)) string count flags0)
    as [st|]; [|reflexivity].
  destruct (is_matched st && negb (is_ambiguous st));
    [destruct (matched_index st); reflexivity|].
  destruct (is_null_found st); [reflexivity | apply IH].
Qed.

Lemma sentinel_or_count_witness :
  match_string_fuzzy 6 (map Some ["tunnel"; "callback"; "queue"]%string
                          ++ None :: [Some ""; Some "quit"]%string) 6 "qu"
  = match_string_fuzzy 6 (map Some ["tunnel"; "callback"; "queue"]%string)
      (Z.of_nat (length ["tunnel"; "callback"; "queue"]%string)) "qu".
Proof.
  apply (sentinel_or_count 6 ["tunnel"; "callback"; "queue"]%string
           [Some ""; Some "quit"]%string 6 "qu").
  cbn. lia.
Defined.

(** ** How much of the input is read *)

Lemma take_take (k m : nat) :
  forall s, (k <= m)%nat -> take k (take m s) = take k s.
Proof.
  revert m. induction k as [|k IH]; intros m s Hk; [reflexivity|].
  destruct m as [|m]; [lia|]. destruct s as [|c s]; [reflexivity|].
  cbn [take]. rewrite IH by lia. reflexivity.
Qed.






(** ** A full candidate as input *)

Lemma strncasecmp_refl (k : nat) : forall s, strncasecmp s s k = 0.
Proof.
  induction k as [|k IH]; intros s; cbn [strncasecmp]; [reflexivity|].
  rewrite Z.sub_diag. cbn [Z.eqb].
  destruct (is_nul (deref s)); [reflexivity | apply IH].
Qed.

(** X5. In a table where no candidate is a prefix of another one (up
    to case), a candidate that is not longer than any other is selected
    by its own full name, in any letter case: the resolver returns its
    index as soon as it has fuel for the length of the name. *)
Theorem exact_shortest_candidate_resolved (array : list (option string))
    (n : Z) (i : nat) (item string : string) (fuel : nat) :
  in_array array 0 n ->
  prefix_free (candidates array 0 n) ->
  nth_error (candidates array 0 n) i = Some item ->
  (0 < strlen item)%nat ->
  (forall item', In item' (candidates array 0 n) ->
                 (strlen item <= strlen item')%nat) ->
  casefold string = casefold item ->
  (strlen item <= fuel)%nat ->
  match_string_fuzzy fuel array n string = Return (Z.of_nat i).
Proof.
  intros Hin Hpf Hnth Hpos Hmin Hcase Hfuel.
  unfold match_string_fuzzy.
  rewrite (find_empty_false array 0 n Hin)
    by (intros it Hit; specialize (Hmin it Hit); lia).
  rewrite (match_loop_casefold fuel array array n string item Hcase eq_refl).
  set (L := strlen item) in *.
  assert (Hself : forall k, matches item item k = true)
    by (intros k; unfold matches; rewrite strncasecmp_refl; reflexivity).
  assert (Hlast : unique_match (candidates array 0 n) item L i).
  { split; [exists item; split; [exact Hnth | apply Hself]|].
    intros j it Hj Hm.
    destruct (Nat.eq_dec j i) as [Hji | Hji]; [exact Hji | exfalso].
    assert (Hp : is_prefix_ci item it = false)
      by (apply (Hpf i j item it); [congruence | exact Hnth | exact Hj]).
    unfold is_prefix_ci in Hp. fold L in Hp. congruence. }
  assert (Hgen : forall d count, (count + d = L)%nat -> (1 <= count)%nat ->
             forall f, (d < f)%nat ->
               match_loop f array n item count = Return (Z.of_nat i)).
  { induction d as [|d IH]; intros count Hc H1 f Hf;
      (destruct f as [|f]; [lia|]); cbn [match_loop].
    - replace count with L by lia.
      rewrite (round_unique array n item L i Hin Hmin Hlast). reflexivity.
    - destruct (round_in_bounds array n item count Hin) as [Hr | [r Hr]].
      + intros it Hit. specialize (Hmin it Hit). lia.
      + rewrite Hr. apply IH; lia.
      + rewrite Hr. f_equal.
        destruct (round_return_cases array n item count r Hr) as [Hu | Hge].
        * exfalso. subst r.
          destruct (round_ambiguous_inv array n item count Hr)
            as [[it [Hit Hex]] _].
          apply exhausted_strlen_le in Hex.
          specialize (Hmin it Hit). lia.
        * destruct (round_index array n item count r Hr Hge) as [_ Huniq].
          specialize (Huniq i item Hnth (Hself count)). lia. }
  apply (Hgen (L - 1)%nat 1%nat); lia.
Qed.

Lemma exact_shortest_candidate_resolved_witness :
  match_string_fuzzy 5 pattern_table 9 "BLACK" = Return (Z.of_nat 1).
Proof.
  apply (exact_shortest_candidate_resolved pattern_table 9 1 "black" "BLACK" 5).
  - right. cbn. tauto.
  - intros i j p q Hij Hi Hj.
    do 8 (destruct i as [|i];
          [do 8 (destruct j as [|j];
                 [try congruence; inversion Hi; inversion Hj; subst;
                  reflexivity|]);
           destruct j; discriminate|]).
    destruct i; discriminate.
  - reflexivity.
  - cbn. lia.
  - intros it Hit. cbn in Hit.
    repeat (destruct Hit as [<-|Hit]; [cbn; lia|]). contradiction.
  - reflexivity.
  - cbn. lia.
Defined.

(** X17. An abbreviation is accepted when it is unambiguous and no
    candidate is shorter than it: if exactly one candidate matches the
    input at some prefix length [L >= 1] and every candidate has at least
    [L] characters, the resolver returns that candidate, at round [L] at
    the latest. *)
Theorem unambiguous_abbreviation_resolved (array : list (option string))
    (n : Z) (string : string) (L i : nat) (fuel : nat) :
  in_array array 0 n ->
  (1 <= L <= fuel)%nat ->
  (forall item, In item (candidates array 0 n) -> (L <= strlen item)%nat) ->
  unique_match (candidates array 0 n) string L i ->
  match_string_fuzzy fuel array n string = Return (Z.of_nat i).
Proof.
  intros Hin HL Hlen Hu. unfold match_string_fuzzy.
  rewrite (find_empty_false array 0 n Hin)
    by (intros it Hit; specialize (Hlen it Hit); lia).
  destruct Hu as [[item [Hnth Hm]] Huniq].
  assert (Hgen : forall d count, (count + d = L)%nat -> (1 <= count)%nat ->
             forall f, (d < f)%nat ->
               match_loop f array n string count = Return (Z.of_nat i)).
  { induction d as [|d IH]; intros count Hc H1 f Hf;
      (destruct f as [|f]; [lia|]); cbn [match_loop].
    - replace count with L by lia.
      rewrite (round_unique array n string L i Hin Hlen); [reflexivity|].
      split; [exists item; split; assumption | exact Huniq].
    - destruct (round_in_bounds array n string count Hin) as [Hr | [r Hr]].
      + intros it Hit. specialize (Hlen it Hit). lia.
      + rewrite Hr. apply IH; lia.
      + rewrite Hr. f_equal.
        destruct (round_return_cases array n string count r Hr)
          as [Hamb | Hge].
        * exfalso. subst r.
          destruct (round_ambiguous_inv array n string count Hr)
            as [[it [Hit Hex]] _].
          apply exhausted_strlen_le in Hex.
          specialize (Hlen it Hit). lia.
        * destruct (round_index array n string count r Hr Hge)
            as [_ Hone].
          assert (Hmc : matches item string count = true)
            by (apply (matches_le item string L count); [lia | exact Hm]).
          specialize (Hone i item Hnth Hmc). lia. }
  apply (Hgen (L - 1)%nat 1%nat); lia.
Qed.

Lemma unambiguous_abbreviation_resolved_witness :
  match_string_fuzzy 3 pattern_table 9 "Blo" = Return (Z.of_nat 6).
Proof.
  apply (unambiguous_abbreviation_resolved pattern_table 9 "Blo" 3 6 3).
  - right. cbn. tauto.
  - lia.
  - intros it Hit. cbn in Hit.
    repeat (destruct Hit as [<-|Hit]; [cbn; lia|]). contradiction.
  - split.
    + exists "blocks"%string. split; reflexivity.
    + intros j it Hj Hm.
      do 8 (destruct j as [|j];
            [cbn in Hj; inversion Hj; subst;
             first [reflexivity | discriminate Hm]|]).
      destruct j; discriminate.
Defined.

(** ** Tables with distinct initials *)

Lemma code_inj (c1 c2 : ascii) : code c1 = code c2 -> c1 = c2.
Proof.
  unfold code. intros H. apply N2Z.inj in H.
  rewrite <- (ascii_N_embedding c1), <- (ascii_N_embedding c2), H.
  reflexivity.
Qed.

Lemma matches_initial (item string : string) :
  matches item string 1 = true <-> initial item = initial string.
Proof.
  unfold matches, initial. cbn [strncasecmp].
  destruct (code (tolower (deref item)) - code (tolower (deref string)) =? 0)
    eqn:E.
  - apply Z.eqb_eq in E. split; intros _.
    + apply code_inj. lia.
    + destruct (is_nul (deref item)); reflexivity.
  - apply Z.eqb_neq in E. split; intros H.
    + apply Z.eqb_eq in H. contradiction.
    + rewrite H in E. lia.
Qed.

(** A first letter that only one candidate has selects it at once. *)
Lemma unique_initial_returns (array : list (option string)) (n : Z)
    (string : string) (i : nat) (fuel : nat) :
  in_array array 0 n ->
  (forall item, In item (candidates array 0 n) -> (0 < strlen item)%nat) ->
  unique_match (candidates array 0 n) string 1 i ->
  (1 <= fuel)%nat ->
  match_string_fuzzy fuel array n string = Return (Z.of_nat i).
Proof.
  intros Hin Hpos Hu Hf. unfold match_string_fuzzy.
  rewrite (find_empty_false array 0 n Hin Hpos).
  destruct fuel as [|fuel]; [lia|]. cbn [match_loop].
  rewrite (round_unique array n string 1 i Hin); [reflexivity | | exact Hu].
  intros item Hitem. specialize (Hpos item Hitem). lia.
Qed.

(** A first letter that no candidate has is answered with the ambiguity
    code, at the length of the shortest candidate. *)
Lemma no_initial_returns (array : list (option string)) (n : Z)
    (string : string) (fuel : nat) :
  in_array array 0 n ->
  candidates array 0 n <> [] ->
  (forall item, In item (candidates array 0 n) -> (0 < strlen item)%nat) ->
  (forall item, In item (candidates array 0 n) ->
                matches item string 1 = false) ->
  (shortest (candidates array 0 n) <= fuel)%nat ->
  match_string_fuzzy fuel array n string = Return (- ENOTUNIQ).
Proof.
  intros Hin Hne Hpos Hno1 Hfuel.
  assert (Hno : forall k item, (1 <= k)%nat ->
             In item (candidates array 0 n) -> matches item string k = false).
  { intros k item Hk Hitem.
    destruct (matches item string k) eqn:E; [|reflexivity].
    specialize (Hno1 item Hitem).
    rewrite (matches_le item string k 1 Hk E) in Hno1. discriminate. }
  unfold match_string_fuzzy.
  rewrite (find_empty_false array 0 n Hin Hpos).
  destruct (shortest_in _ Hne) as [item [Hitem Hlen]].
  assert (Hk : (1 <= shortest (candidates array 0 n))%nat)
    by (specialize (Hpos item Hitem); lia).
  apply (match_loop_reach array n string fuel 1
           (shortest (candidates array 0 n))); [lia | |].
  - rewrite round_no_match; [| exact Hin | | ].
    + replace (existsb _ _) with true; [reflexivity|].
      symmetry. apply existsb_exists. exists item. split; [exact Hitem|].
      rewrite <- Hlen. apply exhausted_at_strlen.
    + intros it Hit. apply shortest_le. exact Hit.
    + intros it Hit. apply Hno; [exact Hk | exact Hit].
  - intros k' Hk'. rewrite round_no_match; [| exact Hin | | ].
    + replace (existsb _ _) with false; [reflexivity|].
      symmetry. apply not_true_is_false. intros Hex.
      apply existsb_exists in Hex. destruct Hex as [it [Hit Hex]].
      apply exhausted_strlen_le in Hex.
      pose proof (shortest_le _ _ Hit). lia.
    + intros it Hit. pose proof (shortest_le _ _ Hit). lia.
    + intros it Hit. apply Hno; [lia | exact Hit].
Qed.

Lemma initial_unique_match (cs : list string) (string : string) (i : nat)
    (item : String.string) :
  NoDup (map initial cs) ->
  nth_error cs i = Some item -> matches item string 1 = true ->
  unique_match cs string 1 i.
Proof.
  intros Hnd Hnth Hm.
  split; [exists item; split; assumption|].
  intros j it Hj Hmj.
  apply matches_initial in Hm. apply matches_initial in Hmj.
  assert (Hi' : nth_error (map initial cs) i = Some (initial item))
    by (rewrite nth_error_map, Hnth; reflexivity).
  assert (Hj' : nth_error (map initial cs) j = Some (initial item))
    by (rewrite nth_error_map, Hj; cbn; congruence).
  apply (proj1 (NoDup_nth_error _) Hnd j i).
  - apply nth_error_Some. rewrite Hj'. discriminate.
  - congruence.
Qed.

(** X9. In a table whose candidates start with pairwise different
    letters (up to case), the first letter of the input decides alone:
    an input that starts like candidate [i] is resolved to [i] in the
    first round, whatever follows its first letter, and an input that
    starts like no candidate gets [-ENOTUNIQ]. *)
Theorem initial_decides (array : list (option string)) (n : Z)
    (string : string) :
  in_array array 0 n ->
  candidates array 0 n <> [] ->
  (forall item, In item (candidates array 0 n) -> (0 < strlen item)%nat) ->
  NoDup (map initial (candidates array 0 n)) ->
  (forall i item fuel,
      nth_error (candidates array 0 n) i = Some item ->
      initial item = initial string -> (1 <= fuel)%nat ->
      match_string_fuzzy fuel array n string = Return (Z.of_nat i)) /\
  ((forall item, In item (candidates array 0 n) ->
                 initial item <> initial string) ->
   forall fuel, (shortest (candidates array 0 n) <= fuel)%nat ->
     match_string_fuzzy fuel array n string = Return (- ENOTUNIQ)).
Proof.
  intros Hin Hne Hpos Hnd. split.
  - intros i item fuel Hnth Hinit Hf.
    apply unique_initial_returns; try assumption.
    apply (initial_unique_match _ string i item Hnd Hnth).
    apply matches_initial. exact Hinit.
  - intros Hnone fuel Hf. apply no_initial_returns; try assumption.
    intros item Hitem. destruct (matches item string 1) eqn:E; [|reflexivity].
    apply matches_initial in E. exfalso. exact (Hnone item Hitem E).
Qed.

Lemma initial_decides_witness :
  match_string_fuzzy 1 conn_table 4 "Cxyz" = Return (Z.of_nat 1) /\
  match_string_fuzzy 5 conn_table 4 "direct" = Return (- ENOTUNIQ).
Proof.
  assert (Hin : in_array conn_table 0 4) by (right; cbn; tauto).
  assert (Hne : candidates conn_table 0 4 <> []) by discriminate.
  assert (Hpos : forall item, In item (candidates conn_table 0 4) ->
                              (0 < strlen item)%nat)
    by (intros item [<-|[<-|[<-|[]]]]; cbn; lia).
  assert (Hnd : NoDup (map initial (candidates conn_table 0 4)))
    by (repeat constructor; cbn; intuition discriminate).
  split.
  - apply (proj1 (initial_decides conn_table 4 "Cxyz" Hin Hne Hpos Hnd)
             1%nat "callback"%string 1%nat); [reflexivity | reflexivity | lia].
  - apply (proj2 (initial_decides conn_table 4 "direct" Hin Hne Hpos Hnd)).
    + intros item [<-|[<-|[<-|[]]]]; discriminate.
    + cbn. lia.
Defined.

(** X8. Over each of the five tables of [main] the resolver returns a
    value for every input string, within 6 rounds: it never reads past
    the end of a candidate and never loops on. *)
Theorem shipped_tables_always_return (array : list (option string))
    (string : string) :
  In array [encoding_table; source_table; pattern_table; dest_table;
            conn_table] ->
  exists r, forall fuel, (6 <= fuel)%nat ->
    match_string_fuzzy fuel array (MMAL_COUNTOF array) string = Return r.
Proof.
  intros Harr.
  assert (Hfirst : forall item0 others,
             in_array array 0 (MMAL_COUNTOF array) ->
             candidates array 0 (MMAL_COUNTOF array) = item0 :: others ->
             (strlen item0 <= 6)%nat ->
             (forall item, In item others ->
                           (strlen item0 <= strlen item)%nat) ->
             exists r, forall fuel, (6 <= fuel)%nat ->
               match_string_fuzzy fuel array (MMAL_COUNTOF array) string
               = Return r).
  { intros item0 others Hin Hcs H6 Hmin.
    destruct (match_string_fuzzy_returns array _ string item0 others
                Hin Hcs Hmin) as [r Hr].
    exists r. intros fuel Hf. apply Hr. lia. }
  destruct Harr as [<-|[<-|[<-|[<-|[<-|[]]]]]].
  - apply (Hfirst "i420" ["rgba"])%string;
      [right; cbn; tauto | reflexivity | cbn; lia |].
    intros item [<-|[]]; cbn; lia.
  - apply (Hfirst "source" ["camera"])%string;
      [right; cbn; tauto | reflexivity | cbn; lia |].
    intros item [<-|[]]; cbn; lia.
  - apply (Hfirst "white" ["black"; "diagonal"; "noise"; "random";
                           "colour"; "blocks"; "swirly"])%string;
      [right; cbn; tauto | reflexivity | cbn; lia |].
    intros item Hitem.
    repeat (destruct Hitem as [<-|Hitem]; [cbn; lia|]). contradiction.
  - apply (Hfirst "null" ["render"])%string;
      [right; cbn; tauto | reflexivity | cbn; lia |].
    intros item [<-|[]]; cbn; lia.
  - (* "queue" is shorter than "tunnel": the initials decide *)
    assert (Hin : in_array conn_table 0 (MMAL_COUNTOF conn_table))
      by (right; cbn; tauto).
    assert (Hpos : forall item,
               In item (candidates conn_table 0 (MMAL_COUNTOF conn_table)) ->
               (0 < strlen item)%nat)
      by (intros item [<-|[<-|[<-|[]]]]; cbn; lia).
    assert (Hnd : NoDup (map initial
                   (candidates conn_table 0 (MMAL_COUNTOF conn_table))))
      by (repeat constructor; cbn; intuition discriminate).
    assert (Hone : forall i item,
               nth_error (candidates conn_table 0 (MMAL_COUNTOF conn_table)) i
               = Some item ->
               matches item string 1 = true ->
               exists r, forall fuel, (6 <= fuel)%nat ->
                 match_string_fuzzy fuel conn_table (MMAL_COUNTOF conn_table)
                   string = Return r).
    { intros i item Hnth Hm. exists (Z.of_nat i). intros fuel Hf.
      apply unique_initial_returns; [exact Hin | exact Hpos | | lia].
      exact (initial_unique_match _ string i item Hnd Hnth Hm). }
    destruct (matches "tunnel" string 1) eqn:E0;
      [exact (Hone 0%nat "tunnel"%string eq_refl E0)|].
    destruct (matches "callback" string 1) eqn:E1;
      [exact (Hone 1%nat "callback"%string eq_refl E1)|].
    destruct (matches "queue" string 1) eqn:E2;
      [exact (Hone 2%nat "queue"%string eq_refl E2)|].
    exists (- ENOTUNIQ). intros fuel Hf.
    apply no_initial_returns; [exact Hin | discriminate | exact Hpos | |].
    + intros item [<-|[<-|[<-|[]]]]; assumption.
    + cbn. lia.
Qed.

Lemma shipped_tables_always_return_witness :
  exists r, forall fuel, (6 <= fuel)%nat ->
    match_string_fuzzy fuel conn_table (MMAL_COUNTOF conn_table)
      "queueing theory" = Return r.
Proof.
  apply (shipped_tables_always_return conn_table "queueing theory").
  cbn. tauto.
Defined.

(** * Further properties of the driver *)

Import DriverSpec.

Section EmitsFacts.

Context {P : event -> Prop}.

Lemma emits_ret {A : Type} (a : A) : Emits P (ret a).
Proof. intros tr. exists []. rewrite app_nil_r. split; [reflexivity | constructor]. Qed.

Lemma emits_exit {A : Type} (status : Z) : Emits P (@exit A status).
Proof. intros tr. exists []. rewrite app_nil_r. split; [reflexivity | constructor]. Qed.

Lemma emits_stuck {A : Type} : Emits P (@stuck A).
Proof. intros tr. exists []. rewrite app_nil_r. split; [reflexivity | constructor]. Qed.

Lemma emits_emit (e : event) : P e -> Emits P (emit e).
Proof.
  intros He tr. exists [e]. split; [reflexivity | repeat constructor; exact He].
Qed.

Lemma emits_bind {A B : Type} (m : M A) (f : A -> M B) :
  Emits P m -> (forall a, Emits P (f a)) -> Emits P (bind m f).
Proof.
  intros Hm Hf tr. unfold bind.
  destruct (Hm tr) as [added [Htr Hall]].
  destruct (m tr) as [a tr' | status tr' | tr']; cbn [trace_of] in Htr.
  - destruct (Hf a tr') as [added' [Htr' Hall']].
    exists (added ++ added'). split.
    + rewrite Htr', Htr, app_assoc. reflexivity.
    + apply Forall_app. split; assumption.
  - exists added. split; assumption.
  - exists added. split; assumption.
Qed.

Lemma emits_check_mmal (lib : library) (call : mmal_call) :
  (forall status, P (Mmal call status)) ->
  (forall status,
      P (Error "MMAL call failed: %s (0x%08x)\n" [AOpaque; AInt status])) ->
  Emits P (check_mmal lib call).
Proof.
  intros Hcall Herr tr. unfold check_mmal.
  destruct (lib tr call =? MMAL_SUCCESS).
  - exists [Mmal call (lib tr call)]. split; [reflexivity|].
    repeat constructor. apply Hcall.
  - exists (failure_report call (lib tr call)). split.
    + unfold bind, print_error, emit, exit. cbn [trace_of].
      rewrite <- app_assoc. reflexivity.
    + repeat constructor; [apply Hcall | apply Herr].
Qed.

End EmitsFacts.

(** Steps through a computation built from [bind], [emit] and the
    conditionals of [main]; the leaves are left to [leaf]. *)
Ltac emits_with leaf :=
  repeat first
    [ apply emits_ret
    | apply emits_exit
    | apply emits_stuck
    | apply emits_bind; [|intros ?]
    | apply emits_emit; leaf
    | apply emits_check_mmal; intros ?; leaf
    | match goal with
      | |- Emits _ (if ?b then _ else _) => destruct b eqn:?
      | |- Emits _ (match ?x with _ => _ end) => destruct x eqn:?
      end ].




(** A computation that, when it goes on, has added nothing to the
    trace. *)
Lemma resolve_silent (fuel : nat) (table : list (option string))
    (optarg ambiguous unknown : string) (tr tr' : trace) (idx : Z) :
  resolve fuel table optarg ambiguous unknown tr = Continue idx tr' ->
  tr' = tr /\
  match_string_fuzzy fuel table (MMAL_COUNTOF table) optarg = Return idx /\
  idx <> - ENOTUNIQ /\ idx <> - ENOENT.
Proof.
  unfold resolve.
  destruct (match_string_fuzzy fuel table (MMAL_COUNTOF table) optarg)
    as [r| |]; try discriminate.
  destruct (r =? - ENOTUNIQ) eqn:E1; [discriminate|].
  destruct (r =? - ENOENT) eqn:E2; [discriminate|].
  unfold ret. intros H. inversion H; subst.
  apply Z.eqb_neq in E1, E2. auto.
Qed.






(** ** Failing library calls *)

Section FailFastFacts.

Lemma ff_quiet {A : Type} (m : M A) :
  (forall tr, exists added,
      trace_of (m tr) = tr ++ added /\ Forall no_failure added) ->
  FailFast m.
Proof.
  intros H tr. destruct (H tr) as [added [Htr Hall]].
  exists added. split; [exact Htr | left; exact Hall].
Qed.

Lemma ff_ret {A : Type} (a : A) : FailFast (ret a).
Proof. apply ff_quiet. apply emits_ret. Qed.

Lemma ff_exit {A : Type} (status : Z) : FailFast (@exit A status).
Proof. apply ff_quiet. apply emits_exit. Qed.

Lemma ff_stuck {A : Type} : FailFast (@stuck A).
Proof. apply ff_quiet. apply emits_stuck. Qed.

Lemma ff_emit (e : event) : no_failure e -> FailFast (emit e).
Proof. intros He. apply ff_quiet. apply emits_emit. exact He. Qed.

Lemma ff_check_mmal (lib : library) (call : mmal_call) :
  FailFast (check_mmal lib call).
Proof.
  intros tr. unfold check_mmal.
  destruct (lib tr call =? MMAL_SUCCESS) eqn:E.
  - exists [Mmal call (lib tr call)]. split; [reflexivity|].
    left. repeat constructor. apply Z.eqb_eq. exact E.
  - exists (failure_report call (lib tr call)).
    assert (Hrun : (print_error "MMAL call failed: %s (0x%08x)\n"
                      [AOpaque; AInt (lib tr call)] ;; exit EXIT_FAILURE)
                     (tr ++ [Mmal call (lib tr call)])
                   = Exit (A:=unit) EXIT_FAILURE
                       (tr ++ failure_report call (lib tr call))).
    { unfold bind, print_error, emit, exit, failure_report.
      rewrite <- app_assoc. reflexivity. }
    rewrite Hrun. split; [reflexivity|].
    right. exists [], call, (lib tr call).
    split; [apply Z.eqb_neq; exact E|].
    split; [reflexivity|]. split; [constructor | reflexivity].
Qed.

Lemma ff_bind {A B : Type} (m : M A) (f : A -> M B) :
  FailFast m -> (forall a, FailFast (f a)) -> FailFast (bind m f).
Proof.
  intros Hm Hf tr. unfold bind.
  destruct (Hm tr) as [added [Htr Hcase]].
  destruct (m tr) as [a tr1 | status tr1 | tr1] eqn:Hrun;
    cbn [trace_of] in Htr.
  - assert (Hok : Forall no_failure added).
    { destruct Hcase as [H | [pre [call [st [_ [_ [_ H]]]]]]];
        [exact H | discriminate]. }
    destruct (Hf a tr1) as [added' [Htr' Hcase']].
    exists (added ++ added'). split.
    + rewrite Htr', Htr, app_assoc. reflexivity.
    + destruct Hcase' as [H | [pre [call [st [Hst [Hadd [Hpre Hexit]]]]]]].
      * left. apply Forall_app. split; assumption.
      * right. exists (added ++ pre), call, st.
        split; [exact Hst|].
        split; [rewrite Hadd, app_assoc; reflexivity|].
        split; [apply Forall_app; split; assumption|].
        rewrite Hexit, Htr, app_assoc. reflexivity.
  - exists added. split; [exact Htr|].
    destruct Hcase as [H | [pre [call [st [Hst [Hadd [Hpre Hexit]]]]]]].
    + left. exact H.
    + right. exists pre, call, st.
      split; [exact Hst|]. split; [exact Hadd|].
      split; [exact Hpre | inversion Hexit; reflexivity].
  - exists added. split; [exact Htr|].
    destruct Hcase as [H | [pre [call [st [_ [_ [_ H]]]]]]];
      [left; exact H | discriminate].
Qed.

End FailFastFacts.

Ltac fail_fast :=
  repeat first
    [ apply ff_ret
    | apply ff_exit
    | apply ff_stuck
    | apply ff_check_mmal
    | apply ff_bind; [|intros ?]
    | apply ff_emit; exact I
    | match goal with
      | |- FailFast (if ?b then _ else _) => destruct b eqn:?
      | |- FailFast (match ?x with _ => _ end) => destruct x eqn:?
      end ].

Lemma parse_options_fail_fast (fuel : nat) (progname : string)
    (steps : list getopt_step) :
  forall cfg, FailFast (parse_options fuel progname steps cfg).
Proof.
  induction steps as [|step steps IH]; intros cfg; cbn [parse_options].
  - apply ff_ret.
  - destruct step as [opt optarg | extra].
    + apply ff_bind; [|exact IH].
      destruct cfg. unfold option_case, resolve, usage, print_error.
      fail_fast.
    + destruct extra; unfold print_error; fail_fast.
Qed.

Lemma configured_fail_fast (lib : library) (cfg : config) :
  FailFast (configured lib cfg).
Proof.
  unfold configured, print_summary, validate, pipeline, create_source,
    create_dest, config_port, sleep, show_stats, print_info, print_error.
  fail_fast.
Qed.

(** X11. A library call that fails is the last thing [main] does: in
    every trace of [main], either no library call has failed, or the
    exit status is [EXIT_FAILURE] and the trace ends with the failed call
    and its error message, every call before it having succeeded.  In
    particular a run that ends with status 0 has seen no failure. *)
Theorem library_failure_is_fatal (fuel : nat) (lib : library)
    (argv : list string) (status : Z) (tr : trace) :
  main fuel lib argv = Some (status, tr) ->
  (Forall no_failure tr \/
   (status = EXIT_FAILURE /\
    exists pre call st,
      st <> MMAL_SUCCESS /\ tr = pre ++ failure_report call st /\
      Forall no_failure pre)) /\
  (status = EXIT_SUCCESS -> Forall no_failure tr).
Proof.
  intros Hmain.
  assert (Hff : FailFast (main_body fuel lib argv)).
  { unfold main_body. destruct argv as [|progname args]; [apply ff_stuck|].
    apply ff_bind; [apply parse_options_fail_fast|].
    intros cfg. apply configured_fail_fast. }
  destruct (Hff []) as [added [Htr Hcase]]. cbn [app] in Htr.
  unfold main in Hmain.
  assert (Hadded : added = tr).
  { destruct (main_body fuel lib argv []) as [a t | a t | t];
      cbn [trace_of] in Htr; inversion Hmain; subst; reflexivity. }
  clear Htr. subst added.
  assert (Hmain' : Forall no_failure tr \/
            (status = EXIT_FAILURE /\
             exists pre call st,
               st <> MMAL_SUCCESS /\ tr = pre ++ failure_report call st /\
               Forall no_failure pre)).
  { destruct Hcase as [H | [pre [call [st [Hst [Hadd [Hpre Hexit]]]]]]].
    - left. exact H.
    - right. rewrite Hexit in Hmain. inversion Hmain; subst status.
      split; [reflexivity|]. exists pre, call, st. auto. }
  split; [exact Hmain'|].
  intros H0. destruct Hmain' as [H | [H1 _]]; [exact H|].
  rewrite H1 in H0. discriminate.
Qed.

Lemma library_failure_is_fatal_witness :
  let lib : library :=
    fun tr call => match call with
                   | mmal_connection_create _ => 4
                   | _ => MMAL_SUCCESS
                   end in
  exists status tr,
    main 6 lib ["bench_conn"]%string = Some (status, tr) /\
    (Forall no_failure tr \/
     (status = EXIT_FAILURE /\
      exists pre call st,
        st <> MMAL_SUCCESS /\ tr = pre ++ failure_report call st /\
        Forall no_failure pre)).
Proof.
  intros lib.
  destruct (main 6 lib ["bench_conn"]%string) as [[status tr]|] eqn:Hmain;
    [|vm_compute in Hmain; discriminate].
  exists status, tr. split; [reflexivity|].
  exact (proj1 (library_failure_is_fatal 6 lib ["bench_conn"]%string
                  status tr Hmain)).
Defined.

(** ** Durations of either sign *)

Section SignedDurations.

Lemma binary_round_aux_opp (m e : Z) (l : location) :
  binary_round_aux 53 1024 true m e l
  = SFopp (binary_round_aux 53 1024 false m e l).
Proof.
  unfold binary_round_aux.
  destruct (shr_fexp 53 1024 m e l) as [mrs' e'].
  destruct (shr_fexp 53 1024 _ e' loc_Exact) as [mrs'' e''].
  destruct (shr_m mrs''); [reflexivity | | reflexivity].
  destruct (e'' <=? 1024 - 53); reflexivity.
Qed.

Lemma of_int_opp (p : positive) :
  Double.of_int (Zneg p) = SFopp (Double.of_int (Zpos p)).
Proof.
  unfold Double.of_int, Double.prec, Double.emax, binary_normalize,
    binary_round.
  destruct (shl_align p 0 _) as [mz ez]. apply binary_round_aux_opp.
Qed.

Lemma to_integer_opp (x : spec_float) :
  Double.to_integer (SFopp x) = option_map Z.opp (Double.to_integer x).
Proof.
  destruct x as [s|s| |s m e]; cbn [SFopp Double.to_integer option_map];
    try reflexivity.
  destruct s; cbn [negb]; f_equal; lia.
Qed.

Lemma seconds_exact_neg (p : positive) :
  Zpos p < 2 ^ 31 ->
  Double.to_integer (Double.mul (Double.of_int (Zneg p)) Double.lit_1e_3)
  = Some (- (Zpos p / 1000)).
Proof.
  intros Hp. pose proof (seconds_exact p Hp) as Hpos.
  rewrite of_int_opp.
  destruct (of_int_normalised p Hp) as [mz [k [Hof _]]].
  rewrite Hof in *.
  unfold Double.mul, Double.lit_1e_3, Double.prec, Double.emax in *.
  cbn [SFopp SFmul xorb negb] in *.
  rewrite binary_round_aux_opp, to_integer_opp, Hpos. reflexivity.
Qed.

Lemma nanoseconds_exact_neg (r : Z) :
  -1000 < r <= 0 ->
  Double.to_integer (Double.mul (Double.of_int r) Double.lit_1e6)
  = Some (r * 1000000).
Proof.
  intros Hr.
  assert (Hall : forallb
            (fun n => match Double.to_integer
                              (Double.mul (Double.of_int (- Z.of_nat n))
                                          Double.lit_1e6) with
                      | Some v => v =? - Z.of_nat n * 1000000
                      | None => false
                      end) (seq 0 1000) = true)
    by (vm_compute; reflexivity).
  rewrite forallb_forall in Hall.
  specialize (Hall (Z.to_nat (- r))). rewrite Z2Nat.id in Hall by lia.
  assert (Hin : In (Z.to_nat (- r)) (seq 0 1000)) by (apply in_seq; lia).
  specialize (Hall Hin). rewrite Z.opp_involutive in Hall.
  destruct (Double.to_integer _) as [v|]; [|discriminate].
  apply Z.eqb_eq in Hall. congruence.
Qed.

End SignedDurations.

(** X15. For every [int] duration, negative ones included, the two
    fields given to [nanosleep] are the quotient of [msec] by 1000
    truncated toward zero and the remainder times [10^6], with the sign
    of [msec]: a negative duration makes a negative interval. *)
Theorem sleep_interval_truncates (ms : Z) :
  - 2 ^ 31 <= ms < 2 ^ 31 ->
  sleep_interval ms = Some (Z.quot ms 1000, Z.rem ms 1000 * 10 ^ 6).
Proof.
  intros Hms. unfold sleep_interval.
  destruct (Z.eq_dec ms (- 2 ^ 31)) as [-> | Hmin];
    [vm_compute; reflexivity|].
  destruct ms as [|p|p].
  - reflexivity.
  - rewrite (seconds_exact p) by lia.
    assert (Hmod : 0 <= Zpos p mod 1000 < 1000)
      by (apply Z.mod_pos_bound; lia).
    rewrite Z.rem_mod_nonneg by lia.
    rewrite (nanoseconds_exact _ Hmod).
    rewrite Z.quot_div_nonneg by lia. reflexivity.
  - rewrite (seconds_exact_neg p) by lia.
    assert (Hmod : 0 <= Zpos p mod 1000 < 1000)
      by (apply Z.mod_pos_bound; lia).
    assert (Hrem : Z.rem (Zneg p) 1000 = - (Zpos p mod 1000)).
    { change (Zneg p) with (- Zpos p). rewrite Z.rem_opp_l by lia.
      rewrite Z.rem_mod_nonneg by lia. reflexivity. }
    assert (Hquot : Z.quot (Zneg p) 1000 = - (Zpos p / 1000)).
    { change (Zneg p) with (- Zpos p). rewrite Z.quot_opp_l by lia.
      rewrite Z.quot_div_nonneg by lia. reflexivity. }
    rewrite Hrem, Hquot.
    rewrite (nanoseconds_exact_neg (- (Zpos p mod 1000))) by lia.
    reflexivity.
Qed.

Lemma sleep_interval_truncates_witness :
  sleep_interval (-1500)
  = Some (Z.quot (-1500) 1000, Z.rem (-1500) 1000 * 10 ^ 6).
Proof.
  apply (sleep_interval_truncates (-1500)). lia.
Defined.

(** ** Calls that depend on the configuration *)

Ltac allowed_leaf :=
  cbn [allowed];
  repeat match goal with
         | H : (_ && _) = true |- _ =>
             apply andb_true_iff in H; destruct H
         | H : (_ || _) = true |- _ => apply orb_true_iff in H
         | H : (_ =? _) = true |- _ => apply Z.eqb_eq in H
         | H : (_ <=? _) = true |- _ => apply Z.leb_le in H
         end;
  try exact I; intuition (try lia).

(** X12. Whatever the library answers, [main] sets the source pattern
    only on the generator, sets the camera number only on the camera and
    only when it is not negative, starts the capture only on the camera
    with output port 1 or 2, and asks for statistics only from the
    generator and from the renderer. *)
Theorem calls_follow_configuration (lib : library) (cfg : config)
    (tr : trace) :
  exists added,
    trace_of (configured lib cfg tr) = tr ++ added /\
    Forall (allowed cfg) added.
Proof.
  revert tr. change (Emits (allowed cfg) (configured lib cfg)).
  unfold configured, print_summary, validate, pipeline, create_source,
    create_dest, config_port, sleep, show_stats, print_info, print_error.
  emits_with allowed_leaf.
Qed.

(** ** The run when every call succeeds *)

Section SuccessfulRun.

Variable lib : library.
Hypothesis lib_succeeds : forall tr call, lib tr call = MMAL_SUCCESS.

Context {P : event -> Prop}.

Lemma succeeds_ret {A : Type} (a : A) : Succeeds P (ret a).
Proof.
  intros tr. exists a, []. rewrite app_nil_r.
  split; [reflexivity | constructor].
Qed.

Lemma succeeds_emit (e : event) : P e -> Succeeds P (emit e).
Proof.
  intros He tr. exists tt, [e].
  split; [reflexivity | repeat constructor; exact He].
Qed.

Lemma succeeds_check_mmal (call : mmal_call) :
  P (Mmal call MMAL_SUCCESS) -> Succeeds P (check_mmal lib call).
Proof.
  intros Hc tr. exists tt, [Mmal call MMAL_SUCCESS].
  unfold check_mmal. rewrite lib_succeeds.
  split; [reflexivity | repeat constructor; exact Hc].
Qed.

Lemma succeeds_bind {A B : Type} (m : M A) (f : A -> M B) :
  Succeeds P m -> (forall a, Succeeds P (f a)) -> Succeeds P (bind m f).
Proof.
  intros Hm Hf tr. unfold bind.
  destruct (Hm tr) as [a [added [Hrun Hall]]]. rewrite Hrun.
  destruct (Hf a (tr ++ added)) as [b [added' [Hrun' Hall']]].
  exists b, (added ++ added'). split.
  - rewrite Hrun', app_assoc. reflexivity.
  - apply Forall_app. split; assumption.
Qed.

(** A computation that succeeds, followed by one that ends with a given
    tail of events. *)
Lemma succeeds_then {A B : Type} (m : M A) (f : A -> M B) (b : B)
    (tail : list event) :
  Succeeds P m ->
  (forall a tr, exists mid,
      f a tr = Continue b (tr ++ mid ++ tail) /\ Forall P mid) ->
  forall tr, exists mid,
    bind m f tr = Continue b (tr ++ mid ++ tail) /\ Forall P mid.
Proof.
  intros Hm Hf tr. unfold bind.
  destruct (Hm tr) as [a [added [Hrun Hall]]]. rewrite Hrun.
  destruct (Hf a (tr ++ added)) as [mid [Hrun' Hall']].
  exists (added ++ mid). split.
  - rewrite Hrun', <- !app_assoc. reflexivity.
  - apply Forall_app. split; assumption.
Qed.

End SuccessfulRun.

Ltac succeeds_with Hlib leaf :=
  repeat first
    [ apply succeeds_ret
    | apply succeeds_bind; [|intros ?]
    | apply succeeds_emit; leaf
    | apply (succeeds_check_mmal _ Hlib); leaf
    | match goal with
      | |- Succeeds _ (if ?b then _ else _) => destruct b eqn:?
      end ].

Lemma sleep_succeeds {P : event -> Prop} (cfg : config) :
  - 2 ^ 31 <= msec cfg < 2 ^ 31 ->
  (forall e, no_checked_call e -> P e) ->
  Succeeds P (sleep cfg).
Proof.
  intros Hms HP. unfold sleep.
  assert (Hint : exists s ns, sleep_interval (msec cfg) = Some (s, ns)).
  { unfold sleep_interval.
    destruct (Z.eq_dec (msec cfg) (- 2 ^ 31)) as [-> | Hmin];
      [eexists; eexists; vm_compute; reflexivity|].
    assert (Hmod : 0 <= Z.abs (msec cfg) mod 1000 < 1000)
      by (apply Z.mod_pos_bound; lia).
    destruct (msec cfg) as [|p|p] eqn:E.
    - eexists; eexists; reflexivity.
    - rewrite (seconds_exact p) by lia.
      rewrite Z.rem_mod_nonneg by lia.
      rewrite (nanoseconds_exact (Zpos p mod 1000)) by exact Hmod.
      eauto.
    - rewrite (seconds_exact_neg p) by lia.
      change (Zneg p) with (- Zpos p). rewrite Z.rem_opp_l by lia.
      rewrite Z.rem_mod_nonneg by lia.
      rewrite (nanoseconds_exact_neg (- (Zpos p mod 1000)))
        by (cbn [Z.abs] in Hmod; lia).
      eauto. }
  destruct Hint as [s [ns Hint]]. rewrite Hint.
  unfold print_info.
  apply succeeds_bind; [|intros ?]; apply succeeds_emit; apply HP; exact I.
Qed.

(** X14. When every status-checked library call succeeds and the source
    has the output port asked for (port 0 of the generator, ports 0 to 2
    of the camera), a run with a generator or camera source, a null or
    render destination and an [int] duration returns 0 from [main], and
    the last three things it does are to destroy the connection, then
    the destination component, then the source component; nothing is
    destroyed before.  Without that port [mmal_util_get_port] returns
    [NULL], which [config_port] dereferences: see
    [missing_output_port_is_dereferenced]. *)
Theorem teardown_order (lib : library) (cfg : config) (tr : trace) :
  (forall tr' call, lib tr' call = MMAL_SUCCESS) ->
  source cfg = SOURCE_SOURCE \/ source cfg = SOURCE_CAMERA ->
  0 <= source_output_port cfg < output_num (source cfg) ->
  dest cfg = DEST_NULL \/ dest cfg = DEST_RENDER ->
  - 2 ^ 31 <= msec cfg < 2 ^ 31 ->
  exists mid,
    pipeline lib cfg tr
    = Continue 0
        (tr ++ mid ++
         [Mmal mmal_connection_destroy MMAL_SUCCESS;
          Mmal (mmal_component_destroy cp_dest) MMAL_SUCCESS;
          Mmal (mmal_component_destroy cp_source) MMAL_SUCCESS]) /\
    Forall no_destroy mid.
Proof.
  intros Hlib Hsrc Hport Hdst Hms.
  assert (Hget : mmal_util_get_port (output_num (source cfg))
                   (source_output_port cfg) = true).
  { unfold mmal_util_get_port. apply andb_true_intro.
    split; [apply Z.leb_le | apply Z.ltb_lt]; lia. }
  assert (Hname_s : exists name, name_of source_to_mmal (source cfg) = Some name)
    by (destruct Hsrc as [-> | ->]; eexists; reflexivity).
  assert (Hname_d : exists name, name_of dest_to_mmal (dest cfg) = Some name)
    by (destruct Hdst as [-> | ->]; eexists; reflexivity).
  destruct Hname_s as [sname Hsname]. destruct Hname_d as [dname Hdname].
  assert (Hsleep : Succeeds no_destroy (sleep cfg)).
  { apply sleep_succeeds; [exact Hms|]. intros [] He; try exact I.
    contradiction. }
  unfold pipeline, create_source, create_dest.
  rewrite Hsname, Hdname, Hget.
  change (mmal_util_get_port 1 0) with true.
  unfold config_port, show_stats, print_info.
  revert tr.
  repeat (apply succeeds_then;
          [first [ exact Hsleep
                 | solve [succeeds_with Hlib ltac:(exact I)] ]
          | intros ? ]).
  intros tr. exists []. cbn [app].
  unfold bind, check_mmal, ret. repeat (rewrite Hlib; cbn).
  rewrite <- !app_assoc. split; [reflexivity | constructor].
Qed.

Lemma teardown_order_witness :
  exists mid,
    pipeline all_success
      (mkConfig ENCODING_I420 640 480 20 SOURCE_CAMERA PATTERN_WHITE 0 1
                DEST_RENDER CONN_TUNNEL) []
    = Continue 0
        ([] ++ mid ++
         [Mmal mmal_connection_destroy MMAL_SUCCESS;
          Mmal (mmal_component_destroy cp_dest) MMAL_SUCCESS;
          Mmal (mmal_component_destroy cp_source) MMAL_SUCCESS]) /\
    Forall no_destroy mid.
Proof.
  apply (teardown_order all_success
           (mkConfig ENCODING_I420 640 480 20 SOURCE_CAMERA PATTERN_WHITE 0 1
                     DEST_RENDER CONN_TUNNEL) []).
  - reflexivity.
  - right. reflexivity.
  - cbn. lia.
  - right. reflexivity.
  - cbn. lia.
Defined.

(** The hypothesis on the port is needed: with a camera source and an
    output port that the camera does not have, the pointer that
    [mmal_util_get_port] returns is null and [config_port] writes
    through it, after the source component is created and its control
    port enabled; the run has no exit status. *)
Lemma missing_output_port_is_dereferenced :
  pipeline all_success
    (mkConfig ENCODING_I420 1920 1080 1000 SOURCE_CAMERA PATTERN_WHITE (-1)
              (-1) DEST_NULL CONN_TUNNEL) []
  = Stuck [Mmal (mmal_component_create "vc.ril.camera") MMAL_SUCCESS;
           Mmal (mmal_port_enable cp_source) MMAL_SUCCESS] /\
  main 20 all_success ["bench_conn"; "-s"; "camera"; "-o"; "-1"]%string = None /\
  main 20 all_success ["bench_conn"; "-s"; "camera"; "-o"; "3"]%string = None.
Proof. repeat split; vm_compute; reflexivity. Qed.

(** ** The enumerated fields of the configuration *)

Lemma resolve_indexes (fuel : nat) (table : list (option string))
    (optarg ambiguous unknown : string) (tr tr' : trace) (idx : Z) :
  resolve fuel table optarg ambiguous unknown tr = Continue idx tr' ->
  indexes table idx.
Proof.
  intros H. apply resolve_silent in H.
  destruct H as [_ [Hret [Hna Hnu]]].
  unfold match_string_fuzzy in Hret.
  destruct (find_empty table 0 (MMAL_COUNTOF table)) as [[|]|];
    try discriminate.
  - inversion Hret. congruence.
  - destruct (match_loop_inv table _ optarg fuel 1 (Return idx) Hret)
      as [k [_ [Hr _]]]; [discriminate|].
    destruct (round_return_cases table _ optarg k idx Hr) as [Hu | Hge];
      [contradiction|].
    destruct (round_index table _ optarg k idx Hr Hge)
      as [[item [Hnth _]] _].
    destruct (candidates_nth_array table 0 _ _ item Hnth) as [Harr _].
    split; [exact Hge | exists item; exact Harr].
Qed.

Lemma option_case_enums (fuel : nat) (progname : string) (opt : ascii)
    (optarg : string) (cfg cfg' : config) (tr tr' : trace) :
  enums_in_range cfg ->
  option_case fuel progname opt optarg cfg tr = Continue cfg' tr' ->
  enums_in_range cfg'.
Proof.
  destruct cfg. unfold enums_in_range. cbn.
  intros [He [Hs [Hp [Hd Hc]]]]. unfold option_case.
  repeat match goal with
         | |- context [if ?b then _ else _] => destruct b
         end;
    unfold bind, ret, usage, print_error, emit, exit;
    try (intros H; inversion H; cbn; tauto);
    try discriminate;
    match goal with
    | |- context [resolve ?f ?t ?o ?a ?u tr] =>
        destruct (resolve f t o a u tr) as [idx tr1| |] eqn:Hr;
        try discriminate;
        apply resolve_indexes in Hr;
        intros H; inversion H; cbn; tauto
    end.
Qed.

(** X16. Parsing keeps the enumerated fields of the configuration
    inside their tables: after any sequence of options that [main]
    accepts, [encoding], [source], [pattern], [dest] and [conn] are
    positions of candidates of their tables, so that the summary and the
    component names index their arrays within bounds. *)
Theorem parsed_enums_in_range (fuel : nat) (progname : string)
    (steps : list getopt_step) (cfg cfg' : config) (tr tr' : trace) :
  enums_in_range cfg ->
  parse_options fuel progname steps cfg tr = Continue cfg' tr' ->
  enums_in_range cfg' /\
  (exists name, name_of source_to_mmal (source cfg') = Some name) /\
  (exists name, name_of dest_to_mmal (dest cfg') = Some name).
Proof.
  intros Hcfg Hparse.
  assert (Henums : enums_in_range cfg').
  { revert cfg tr Hcfg Hparse.
    induction steps as [|step steps IH]; intros cfg tr Hcfg Hparse;
      cbn [parse_options] in Hparse.
    - inversion Hparse; subst. exact Hcfg.
    - destruct step as [opt optarg | extra].
      + unfold bind in Hparse.
        destruct (option_case fuel progname opt optarg cfg tr)
          as [cfg1 tr1| |] eqn:Hc; try discriminate.
        apply (IH cfg1 tr1); [|exact Hparse].
        exact (option_case_enums _ _ _ _ _ _ _ _ Hcfg Hc).
      + destruct extra; [|discriminate].
        inversion Hparse; subst. exact Hcfg. }
  split; [exact Henums|].
  destruct Henums as [_ [[Hs0 [sitem Hs]] [_ [[Hd0 [ditem Hd]] _]]]].
  assert (Hname : forall (table : list (option string)) names i item,
             0 <= i -> length table = 3%nat -> nth_error table 2 = Some None ->
             length names = 2%nat ->
             nth_error table (Z.to_nat i) = Some (Some item) ->
             exists name, name_of names i = Some name).
  { intros table names i item Hi Hlen Hnull Hnames Hnth.
    unfold name_of.
    replace (i <? 0) with false by (symmetry; apply Z.ltb_ge; exact Hi).
    destruct (nth_error names (Z.to_nat i)) as [name|] eqn:E; [eauto|].
    apply nth_error_None in E.
    assert (Hlt : (Z.to_nat i < length table)%nat)
      by (apply nth_error_Some; rewrite Hnth; discriminate).
    assert (Z.to_nat i = 2%nat) by lia.
    congruence. }
  split.
  - exact (Hname source_table source_to_mmal _ sitem Hs0 eq_refl eq_refl
             eq_refl Hs).
  - exact (Hname dest_table dest_to_mmal _ ditem Hd0 eq_refl eq_refl
             eq_refl Hd).
Qed.

Lemma parsed_enums_in_range_witness :
  exists cfg',
    parse_options 6 "bench_conn"
      (getopt optstring ["-p"; "sw"; "-d"; "REN"; "-c"; "q"]%string)
      default_config [] = Continue cfg' [] /\
    enums_in_range cfg' /\
    (exists name, name_of source_to_mmal (source cfg') = Some name) /\
    (exists name, name_of dest_to_mmal (dest cfg') = Some name).
Proof.
  eexists. split; [vm_compute; reflexivity|].
  apply (parsed_enums_in_range 6 "bench_conn"
           (getopt optstring ["-p"; "sw"; "-d"; "REN"; "-c"; "q"]%string)
           default_config _ [] []).
  - unfold enums_in_range, indexes.
    repeat match goal with |- _ /\ _ => split end;
      first [discriminate | eexists; reflexivity].
  - vm_compute. reflexivity.
Defined.

(** ** The [default:] case of the [switch] *)

Lemma getopt_cluster_options (cluster : string) (following : option string) :
  forall opt optarg,
    In (Got opt optarg) (fst (getopt_cluster optstring cluster following)) ->
    opt = "?"%char \/
    (opt <> ":"%char /\ optstring_lookup opt optstring <> None).
Proof.
  induction cluster as [|c cluster IH]; intros opt optarg Hin;
    cbn [getopt_cluster] in Hin.
  - destruct Hin.
  - destruct (is_nul c); [destruct Hin|].
    assert (Hk : forall b,
               (if Ascii.eqb c ":" then None
                else optstring_lookup c optstring) = Some b ->
               c <> ":"%char /\ optstring_lookup c optstring <> None).
    { intros b Hb. destruct (Ascii.eqb c ":") eqn:E; [discriminate|].
      apply Ascii.eqb_neq in E. split; [exact E | congruence]. }
    destruct (if Ascii.eqb c ":" then None else optstring_lookup c optstring)
      as [[|]|] eqn:Hc.
    + specialize (Hk true eq_refl).
      destruct (is_nul (deref cluster)).
      * destruct following as [a|]; destruct Hin as [Hin|[]];
          inversion Hin; subst; [right; exact Hk | left; reflexivity].
      * destruct Hin as [Hin|[]]. inversion Hin; subst. right. exact Hk.
    + specialize (Hk false eq_refl).
      destruct (getopt_cluster optstring cluster following) as [steps taken].
      destruct Hin as [Hin|Hin].
      * inversion Hin; subst. right. exact Hk.
      * eapply IH. exact Hin.
    + destruct (getopt_cluster optstring cluster following) as [steps taken].
      destruct Hin as [Hin|Hin].
      * inversion Hin; subst. left. reflexivity.
      * eapply IH. exact Hin.
Qed.

Lemma getopt_known (n : nat) :
  forall args, (length args <= n)%nat ->
               Forall known_step (getopt optstring args).
Proof.
  induction n as [|n IH]; intros args Hlen.
  - destruct args; [repeat constructor | cbn in Hlen; lia].
  - destruct args as [|arg rest]; [repeat constructor|].
    cbn [length] in Hlen. cbn [getopt].
    destruct (String.eqb arg "--"); [repeat constructor|].
    destruct (Ascii.eqb (deref arg) "-" && negb (is_nul (deref (next arg))));
      [|repeat constructor].
    pose proof (getopt_cluster_options (next arg) (hd_error rest)) as Hcl.
    destruct (getopt_cluster optstring (next arg) (hd_error rest))
      as [steps taken].
    cbn [fst] in Hcl. apply Forall_app. split.
    + apply Forall_forall. intros [opt optarg | extra] Hin; cbn; [|exact I].
      exact (Hcl opt optarg Hin).
    + destruct taken; [|apply IH; lia].
      destruct rest as [|r rest']; [repeat constructor|].
      apply IH. cbn [length] in Hlen. lia.
Qed.

Lemma known_dispatch (opt : ascii) :
  opt = "?"%char \/
  (opt <> ":"%char /\ optstring_lookup opt optstring <> None) ->
  (Ascii.eqb opt "e" || Ascii.eqb opt "w" || Ascii.eqb opt "h"
   || Ascii.eqb opt "t" || Ascii.eqb opt "s" || Ascii.eqb opt "p"
   || Ascii.eqb opt "n" || Ascii.eqb opt "o" || Ascii.eqb opt "d"
   || Ascii.eqb opt "c" || Ascii.eqb opt "?")%bool = true.
Proof.
  intros H.
  destruct opt as [[] [] [] [] [] [] [] []]; try reflexivity;
    (destruct H as [H | [H1 H2]];
     [discriminate H
     | exfalso; first [apply H1; reflexivity | apply H2; reflexivity]]).
Qed.

Ltac not_unknown_leaf :=
  first
    [ exact I
    | cbn [not_unknown_option]; let Hx := fresh in intros Hx; discriminate Hx
    | exfalso;
      match goal with
      | Hk : ?o = "?"%char \/ _ |- _ =>
          pose proof (known_dispatch o Hk) as Hd;
          repeat match goal with
                 | E : Ascii.eqb o _ = false |- _ => rewrite E in Hd; clear E
                 end;
          discriminate Hd
      end ].

Lemma option_case_known (fuel : nat) (progname : string) (opt : ascii)
    (optarg : string) (cfg : config) :
  opt = "?"%char \/
  (opt <> ":"%char /\ optstring_lookup opt optstring <> None) ->
  Emits not_unknown_option (option_case fuel progname opt optarg cfg).
Proof.
  intros Hk. destruct cfg.
  unfold option_case, resolve, usage, print_error.
  emits_with not_unknown_leaf.
Qed.

Lemma parse_options_known (fuel : nat) (progname : string)
    (steps : list getopt_step) :
  Forall known_step steps ->
  forall cfg, Emits not_unknown_option
                (parse_options fuel progname steps cfg).
Proof.
  induction 1 as [|step steps Hstep _ IH]; intros cfg; cbn [parse_options].
  - apply emits_ret.
  - destruct step as [opt optarg | extra].
    + apply emits_bind; [apply option_case_known; exact Hstep | exact IH].
    + destruct extra; unfold print_error; emits_with not_unknown_leaf.
Qed.

(** X13. The [default:] case of the [switch] over the options is never
    taken: [getopt] only hands over the option characters of its
    [optstring] and ['?'], each of which has a [case], so that no run of
    [main] prints "Unknown option". *)
Theorem unknown_option_is_never_reported (fuel : nat) (lib : library)
    (argv : list string) (status : Z) (tr : trace) :
  main fuel lib argv = Some (status, tr) ->
  Forall not_unknown_option tr.
Proof.
  intros Hmain.
  assert (He : Emits not_unknown_option (main_body fuel lib argv)).
  { unfold main_body. destruct argv as [|progname args]; [apply emits_stuck|].
    apply emits_bind.
    - apply parse_options_known. apply (getopt_known (length args)). lia.
    - intros cfg.
      unfold configured, print_summary, validate, pipeline, create_source,
        create_dest, config_port, sleep, show_stats, print_info, print_error.
      emits_with not_unknown_leaf. }
  destruct (He []) as [added [Htr Hall]]. cbn [app] in Htr.
  unfold main in Hmain.
  destruct (main_body fuel lib argv []) as [a t | a t | t];
    cbn [trace_of] in Htr; inversion Hmain; subst; exact Hall.
Qed.

Lemma unknown_option_is_never_reported_witness :
  Forall not_unknown_option
    [Stdout "Usage: %s [OPTION]...\n" [AStr "bench_conn"];
     Stdout usage_text []].
Proof.
  apply (unknown_option_is_never_reported 0 all_success
           ["bench_conn"; "-:z"]%string EXIT_SUCCESS).
  reflexivity.
Defined.
